(** * wodonga: on-demand service supervision and the TCP connection pump

    A shallow embedding of [wodonga/service.py] and [wodonga/tcp.py].

    The program runs on trio: one scheduler thread, tasks that give up
    control only at an [await].  A task is embedded as a program counter
    naming the [await] it is suspended at, and one step of a task is the
    code between two consecutive [await]s, executed atomically on the shared
    [Service] object.  Which task runs next, what the operating system
    answers and how far the clock advances are supplied from outside as
    [action]s, so every definition below is a function that can be run on a
    concrete schedule.  Cancellation of the nursery that owns the
    controller, that is the shutdown of the whole server, is not part of
    the embedding. *)

From stdpp Require Import gmap strings list fin_maps pretty.

(** ** Time

    [trio.current_time()] returns seconds as a float.  The embedding counts
    whole milliseconds, so that [10.0], [600], [5], [20] and [0.1] seconds
    are exact. *)

Abbreviation time := Z (only parsing).

Definition seconds (n : Z) : time := (1000 * n)%Z.

(** Python's [str] on an [int]: decimal digits, a leading minus sign for
    negative numbers. *)
Definition str (n : Z) : string := pretty n.

Module Service.

(** Identity of a [trio.Event] object and of a [trio.Process] object. *)
Abbreviation event := nat (only parsing).
Abbreviation process := nat (only parsing).

(** The constructor arguments of [Service] that are never assigned again. *)
Record Config := {
  name : string;
  command : list string;
  workdir : string;
  env : gmap string string;
  ports : list Z;
  signal : Z;
}.

(** The attributes of [Service] that the tasks assign to. *)
Record Service := {
  _service_wanted : event;
  _service_started : event;
  _process : option process;
  _port_map : option (gmap Z Z);
  _users : Z;
  _executable_last_started : time;
}.

(** Calls that leave the controller, most recent first.  [Launch] records
    the value stamped into [_executable_last_started]. *)
Inductive effect :=
| Launch (t : time)
| OpenProcess (argv : list string) (cwd : string) (e : gmap string string)
| Cleanup (p : option process) (sig : Z)
| SendSignal (p : process) (sig : Z)
| Kill (p : process).

(** Where [_run_loop] is suspended. *)
Inductive loop_pc :=
| LStart                              (* scheduled by [start_soon], not yet run *)
| LWaitWanted (e : event)             (* [await self._service_wanted.wait()] *)
| LSleep (deadline : time)            (* [await trio.sleep_until(...)] *)
| LAlloc (pending : list Z)           (* inner nursery: [get_port] children still running *)
| LSpawn                              (* [await trio.open_process(...)] *)
| LWaitProcess (p : process)          (* [await self._process.wait()] *)
| LCleanup (raising : bool)           (* [await cleanup_dead_process(...)] in [finally] *)
| LCrashed.                           (* an exception left [_run_loop] *)

(** Where any other task is suspended: a caller of [use()], a
    [_shutdown_timer] task, a caller of [stop()]. *)
Inductive task_pc :=
| UEntry                              (* about to call [use()] *)
| UWaitStarted (e : event)            (* [await self._service_started.wait()] *)
| UInScope                            (* inside the [with] body, after [yield self._port_map] *)
| UStarting                           (* [await self._nursery.start(...)], child not initialised *)
| UStarted                            (* same [await], [task_status.started()] was called *)
| UReturned                           (* [use()] has been left *)
| TInit (parent : nat)                (* [_shutdown_timer] spawned, not yet run *)
| TWait (e : event) (deadline : time) (* [await self._service_wanted.wait()] under [move_on_after(600)] *)
| TReturned                           (* timer stopped because the service was wanted *)
| SEntry                              (* about to call [stop()] *)
| SWait (p : process) (deadline : time) (* first [await self._process.wait()], under [move_on_after(5)] *)
| SKillWait (p : process)             (* second [await self._process.wait()] *)
| SReturned                           (* [stop()] returned *)
| SCrashed.                           (* [self._process.kill()] on [None] *)

Record World := {
  self : Service;
  fired : gset event;          (* the Event objects whose flag is set *)
  next_event : event;          (* the next fresh Event object *)
  now : time;                  (* [trio.current_time()] *)
  next_process : process;      (* the next fresh Process object *)
  exited : gset process;       (* the child processes that have terminated *)
  run_loop : loop_pc;
  tasks : list task_pc;
  effects : list effect;
}.

(** What the scheduler hands to a task when it resumes it. *)
Inductive input :=
| Go                           (* the awaited operation completed *)
| Timeout                      (* the deadline of the enclosing [move_on_after] passed *)
| Port (i : nat) (a : Z)       (* [get_free_port()] of the [i]-th pending child returned [a] *)
| PortError (i : nat)          (* ... raised *)
| Spawned                      (* [trio.open_process] returned a process *)
| SpawnError                   (* [trio.open_process] raised *)
| BodyEnds (raised : bool).    (* the [with] body was left, normally or by an exception *)

Inductive action :=
| Tick (dt : Z)                (* the clock advances *)
| Exit (p : process)           (* child process [p] terminates *)
| Enter                        (* a new task that calls [use()] is started *)
| Stop                         (* a new task that calls [stop()] is started *)
| Loop (i : input)             (* the scheduler resumes [_run_loop] *)
| Resume (t : nat) (i : input). (* the scheduler resumes task [t] *)

(** *** Field updates *)

Definition set_self (s : Service) (w : World) : World :=
  {| self := s; fired := fired w; next_event := next_event w; now := now w;
     next_process := next_process w; exited := exited w;
     run_loop := run_loop w; tasks := tasks w; effects := effects w |}.

Definition set_fired (f : gset event) (w : World) : World :=
  {| self := self w; fired := f; next_event := next_event w; now := now w;
     next_process := next_process w; exited := exited w;
     run_loop := run_loop w; tasks := tasks w; effects := effects w |}.

Definition set_next_event (n : event) (w : World) : World :=
  {| self := self w; fired := fired w; next_event := n; now := now w;
     next_process := next_process w; exited := exited w;
     run_loop := run_loop w; tasks := tasks w; effects := effects w |}.

Definition set_now (t : time) (w : World) : World :=
  {| self := self w; fired := fired w; next_event := next_event w; now := t;
     next_process := next_process w; exited := exited w;
     run_loop := run_loop w; tasks := tasks w; effects := effects w |}.

Definition set_next_process (n : process) (w : World) : World :=
  {| self := self w; fired := fired w; next_event := next_event w; now := now w;
     next_process := n; exited := exited w;
     run_loop := run_loop w; tasks := tasks w; effects := effects w |}.

Definition set_exited (x : gset process) (w : World) : World :=
  {| self := self w; fired := fired w; next_event := next_event w; now := now w;
     next_process := next_process w; exited := x;
     run_loop := run_loop w; tasks := tasks w; effects := effects w |}.

Definition set_loop (l : loop_pc) (w : World) : World :=
  {| self := self w; fired := fired w; next_event := next_event w; now := now w;
     next_process := next_process w; exited := exited w;
     run_loop := l; tasks := tasks w; effects := effects w |}.

Definition set_tasks (ts : list task_pc) (w : World) : World :=
  {| self := self w; fired := fired w; next_event := next_event w; now := now w;
     next_process := next_process w; exited := exited w;
     run_loop := run_loop w; tasks := ts; effects := effects w |}.

Definition emit (e : effect) (w : World) : World :=
  {| self := self w; fired := fired w; next_event := next_event w; now := now w;
     next_process := next_process w; exited := exited w;
     run_loop := run_loop w; tasks := tasks w; effects := e :: effects w |}.

Definition set_task (t : nat) (pc : task_pc) (w : World) : World :=
  set_tasks (<[t := pc]> (tasks w)) w.

Definition spawn (pc : task_pc) (w : World) : World :=
  set_tasks (tasks w ++ [pc]) w.

Definition set_wanted (e : event) (s : Service) : Service :=
  {| _service_wanted := e; _service_started := _service_started s;
     _process := _process s; _port_map := _port_map s; _users := _users s;
     _executable_last_started := _executable_last_started s |}.

Definition set_started (e : event) (s : Service) : Service :=
  {| _service_wanted := _service_wanted s; _service_started := e;
     _process := _process s; _port_map := _port_map s; _users := _users s;
     _executable_last_started := _executable_last_started s |}.

Definition set_process (p : option process) (s : Service) : Service :=
  {| _service_wanted := _service_wanted s; _service_started := _service_started s;
     _process := p; _port_map := _port_map s; _users := _users s;
     _executable_last_started := _executable_last_started s |}.

Definition set_port_map (pm : option (gmap Z Z)) (s : Service) : Service :=
  {| _service_wanted := _service_wanted s; _service_started := _service_started s;
     _process := _process s; _port_map := pm; _users := _users s;
     _executable_last_started := _executable_last_started s |}.

Definition set_users (n : Z) (s : Service) : Service :=
  {| _service_wanted := _service_wanted s; _service_started := _service_started s;
     _process := _process s; _port_map := _port_map s; _users := n;
     _executable_last_started := _executable_last_started s |}.

Definition set_last_started (t : time) (s : Service) : Service :=
  {| _service_wanted := _service_wanted s; _service_started := _service_started s;
     _process := _process s; _port_map := _port_map s; _users := _users s;
     _executable_last_started := t |}.

(** *** trio primitives *)

(** [Event.is_set()]. *)
Definition is_set (e : event) (w : World) : bool := bool_decide (e ∈ fired w).

(** [Event.set()]. *)
Definition set (e : event) (w : World) : World := set_fired ({[e]} ∪ fired w) w.

(** [trio.Event()]: the identity of the new, unset object and the world in
    which it has been allocated. *)
Definition Event (w : World) : event * World :=
  (next_event w, set_next_event (S (next_event w)) w).

(** [Process.wait()] may return. *)
Definition has_exited (p : process) (w : World) : bool := bool_decide (p ∈ exited w).

(** A port the operating system may hand out for a bind to port 0: any
    valid port number other than 0.  Nothing relates it to the ports
    handed out before, since [get_free_port] closes its socket before it
    returns. *)
Definition ephemeral (a : Z) : bool := bool_decide (1 ≤ a ≤ 65535)%Z.

(** *** The child environment

    [{**self.env, **{f"PORT_{port}": str(alloc_port) for port, alloc_port in
    self._port_map.items()}}]: the comprehension inserts one entry per item
    of the port map, a later item replacing an earlier one with the same
    key; in the merge the entries of the comprehension replace those of
    [self.env]. *)

Definition port_var (port : Z) : string := "PORT_" +:+ str port.

Definition add_port_var (m : gmap string string) (item : Z * Z) : gmap string string :=
  <[port_var item.1 := str item.2]> m.

Definition port_vars (pm : gmap Z Z) : gmap string string :=
  foldl add_port_var ∅ (map_to_list pm).

Definition child_env (base : gmap string string) (pm : gmap Z Z) : gmap string string :=
  port_vars pm ∪ base.

Section Controller.

Context (cfg : Config).

(** [__init__]: two fresh events, the class defaults for the other
    attributes, and [_run_loop] handed to the nursery.  [t0] is the reading
    of the clock at that moment. *)
Definition init (t0 : time) : World :=
  {| self := {| _service_wanted := 0; _service_started := 1;
                _process := None; _port_map := None; _users := 0;
                _executable_last_started := 0 |};
     fired := ∅; next_event := 2; now := t0;
     next_process := 0; exited := ∅;
     run_loop := LStart; tasks := []; effects := [] |}.

(** The top of the [while True] body, up to its first [await]. *)
Definition loop_top (w : World) : World :=
  set_loop (LWaitWanted (_service_wanted (self w))) w.

(** The [finally] clause of [_run_loop], up to its [await]. *)
Definition loop_finally (raising : bool) (w : World) : World :=
  set_loop (LCleanup raising) (emit (Cleanup (_process (self w)) (signal cfg)) w).

(** One step of [_run_loop]. *)
Definition step_loop (i : input) (w : World) : option World :=
  match run_loop w, i with
  | LStart, Go => Some (loop_top w)
  | LWaitWanted e, Go =>
      if is_set e w
      then Some (set_loop (LSleep (_executable_last_started (self w) + seconds 10)) w)
      else None
  | LSleep deadline, Go =>
      if bool_decide (deadline ≤ now w)%Z
      then Some (set_loop (LAlloc (ports cfg))
                   (emit (Launch (now w))
                      (set_self (set_port_map (Some ∅)
                                   (set_last_started (now w) (self w))) w)))
      else None
  | LAlloc pending, Port i a =>
      match pending !! i, _port_map (self w) with
      | Some port_to_map, Some pm =>
          if ephemeral a
          then Some (set_loop (LAlloc (delete i pending))
                       (set_self (set_port_map (Some (<[port_to_map := a]> pm)) (self w)) w))
          else None
      | Some _, None => Some (set_loop LCrashed w)
      | None, _ => None
      end
  | LAlloc pending, PortError i =>
      (* the exception cancels the siblings and leaves the nursery block,
         which is outside the [try] *)
      match pending !! i with
      | Some _ => Some (set_loop LCrashed w)
      | None => None
      end
  | LAlloc pending, Go =>
      match pending, _port_map (self w) with
      | [], Some pm =>
          Some (set_loop LSpawn
                  (emit (OpenProcess (command cfg) (workdir cfg) (child_env (env cfg) pm)) w))
      | [], None => Some (set_loop LCrashed w)
      | _ :: _, _ => None
      end
  | LSpawn, Spawned =>
      let p := next_process w in
      let w := set_next_process (S p) w in
      let w := set_self (set_process (Some p) (self w)) w in
      let w := set (_service_started (self w)) w in
      Some (set_loop (LWaitProcess p) w)
  | LSpawn, SpawnError => Some (loop_finally true w)
  | LWaitProcess p, Go =>
      if has_exited p w then Some (loop_finally false w) else None
  | LCleanup raising, Go =>
      if raising then Some (set_loop LCrashed w)
      else
        let w := set_self (set_process None (self w)) w in
        let (e, w) := Event w in
        let w := set_self (set_started e (self w)) w in
        Some (loop_top w)
  | _, _ => None
  end.

(** [stop()], called by task [t], up to its first [await] or its return. *)
Definition stop (t : nat) (w : World) : World :=
  match _process (self w) with
  | Some p =>
      set_task t (SWait p (now w + seconds 5)) (emit (SendSignal p (signal cfg)) w)
  | None => set_task t SReturned w
  end.

(** [task_status.started()], called by a child of [nursery.start]: the
    task suspended in that [start] becomes runnable. *)
Definition task_status_started (parent : nat) (w : World) : World :=
  match tasks w !! parent with
  | Some UStarting => set_task parent UStarted w
  | _ => w
  end.

(** One step of task [t]. *)
Definition step_task (t : nat) (i : input) (w : World) : option World :=
  match tasks w !! t with
  | None => None
  | Some pc =>
    match pc, i with
    (* [use()], entry *)
    | UEntry, Go =>
        let w := set (_service_wanted (self w)) w in
        Some (set_task t (UWaitStarted (_service_started (self w))) w)
    | UWaitStarted e, Go =>
        if is_set e w
        then Some (set_task t UInScope
                     (set_self (set_users (_users (self w) + 1) (self w)) w))
        else None
    (* [use()], the [finally] clause *)
    | UInScope, BodyEnds _ =>
        let w := set_self (set_users (_users (self w) - 1) (self w)) w in
        if bool_decide (_users (self w) = 0)%Z
        then Some (spawn (TInit t) (set_task t UStarting w))
        else Some (set_task t UReturned w)
    | UStarted, Go => Some (set_task t UReturned w)
    (* [_shutdown_timer] *)
    | TInit parent, Go =>
        let w := task_status_started parent w in
        let (e, w) := Event w in
        let w := set_self (set_wanted e (self w)) w in
        Some (set_task t (TWait e (now w + seconds 600)) w)
    | TWait e _, Go =>
        if is_set e w then Some (set_task t TReturned w) else None
    | TWait _ deadline, Timeout =>
        if bool_decide (deadline ≤ now w)%Z then Some (stop t w) else None
    (* [stop()] *)
    | SEntry, Go => Some (stop t w)
    | SWait p _, Go =>
        if has_exited p w then Some (set_task t SReturned w) else None
    | SWait _ deadline, Timeout =>
        if bool_decide (deadline ≤ now w)%Z
        then match _process (self w) with
             | Some q => Some (set_task t (SKillWait q) (emit (Kill q) w))
             | None => Some (set_task t SCrashed w)
             end
        else None
    | SKillWait q, Go =>
        if has_exited q w then Some (set_task t SReturned w) else None
    | _, _ => None
    end
  end.

(** One step of the whole system. *)
Definition step (w : World) (a : action) : option World :=
  match a with
  | Tick dt => if bool_decide (0 ≤ dt)%Z then Some (set_now (now w + dt)%Z w) else None
  | Exit p =>
      if bool_decide (p < next_process w)
      then Some (set_exited ({[p]} ∪ exited w) w)
      else None
  | Enter => Some (spawn UEntry w)
  | Stop => Some (spawn SEntry w)
  | Loop i => step_loop i w
  | Resume t i => step_task t i w
  end.

Fixpoint run (w : World) (acts : list action) : option World :=
  match acts with
  | [] => Some w
  | a :: acts => w' ← step w a; run w' acts
  end.

(** The states the controller can be in, for a clock that read [t0] when
    the controller was constructed. *)
Definition reachable (t0 : time) (w : World) : Prop :=
  ∃ acts, run (init t0) acts = Some w.

End Controller.

(** *** Observations on a state *)

(** What a task contributes to the number of open [use()] scopes. *)
Definition in_scope (pc : task_pc) : Z :=
  match pc with UInScope => 1 | _ => 0 end.

(** The number of tasks that are inside the body of a [use()] scope. *)
Fixpoint open_scopes (ts : list task_pc) : Z :=
  match ts with
  | [] => 0
  | pc :: ts => in_scope pc + open_scopes ts
  end.

(** The values stamped into [_executable_last_started], most recent first. *)
Fixpoint launches (es : list effect) : list time :=
  match es with
  | [] => []
  | Launch t :: es => t :: launches es
  | _ :: es => launches es
  end.

(** The environments handed to [trio.open_process], most recent first. *)
Fixpoint spawn_envs (es : list effect) : list (gmap string string) :=
  match es with
  | [] => []
  | OpenProcess _ _ e :: es => e :: spawn_envs es
  | _ :: es => spawn_envs es
  end.

(** A port map has exactly one entry for every port of the descriptor. *)
Definition populated (cfg : Config) (pm : gmap Z Z) : Prop :=
  ∀ port, is_Some (pm !! port) ↔ port ∈ ports cfg.

(** Every allocated port is a valid TCP port number. *)
Definition in_range (pm : gmap Z Z) : Prop :=
  ∀ port a, pm !! port = Some a → (1 ≤ a ≤ 65535)%Z.

(** The two Event attributes hold distinct, allocated objects, and only
    allocated objects have been set. *)
Definition events_wf (w : World) : Prop :=
  _service_wanted (self w) ≠ _service_started (self w) ∧
  _service_wanted (self w) < next_event w ∧
  _service_started (self w) < next_event w ∧
  ∀ e, e ∈ fired w → e < next_event w.

(** What holds of the shared state at each suspension point of
    [_run_loop]. *)
Definition loop_inv (cfg : Config) (w : World) : Prop :=
  match run_loop w with
  | LAlloc pending =>
      (_service_started (self w) ∉ fired w) ∧
      ∃ pm, _port_map (self w) = Some pm ∧ in_range pm ∧
        (∀ port, port ∈ ports cfg → port ∈ pending ∨ is_Some (pm !! port)) ∧
        (∀ port, port ∈ pending ∨ is_Some (pm !! port) → port ∈ ports cfg)
  | LSpawn =>
      (_service_started (self w) ∉ fired w) ∧
      ∃ pm, _port_map (self w) = Some pm ∧ in_range pm ∧ populated cfg pm
  | LWaitProcess _ | LCleanup false =>
      (∃ p, _process (self w) = Some p ∧ p < next_process w) ∧
      ∃ pm, _port_map (self w) = Some pm ∧ in_range pm ∧ populated cfg pm
  | _ => _service_started (self w) ∉ fired w
  end.

(** Each entry follows the one after it by at least [gap]. *)
Fixpoint spaced (gap : time) (ts : list time) : Prop :=
  match ts with
  | later :: (earlier :: _) as ts => (earlier + gap ≤ later)%Z ∧ spaced gap ts
  | _ => True
  end.

(** The flap-suppression bookkeeping: the recorded launches are spaced,
    the attribute holds the latest of them, and a pending [sleep_until]
    was given the deadline computed from it. *)
Definition launch_inv (w : World) : Prop :=
  spaced (seconds 10) (launches (effects w)) ∧
  (∀ t, head (launches (effects w)) = Some t → _executable_last_started (self w) = t) ∧
  (∀ d, run_loop w = LSleep d → d = (_executable_last_started (self w) + seconds 10)%Z).

(** What a step adds to [_users]: one when a task passes
    [await self._service_started.wait()], minus one when a task leaves the
    [with] body, nothing otherwise. *)
Definition users_delta (w : World) (a : action) : Z :=
  match a with
  | Resume t i =>
      match tasks w !! t, i with
      | Some (UWaitStarted _), Go => 1
      | Some UInScope, BodyEnds _ => -1
      | _, _ => 0
      end
  | _ => 0
  end.

(** An exception is on its way out of [_run_loop], or has left it. *)
Definition loop_over (w : World) : Prop :=
  run_loop w = LCleanup true ∨ run_loop w = LCrashed.

(** *** Concrete runs *)

(** A service reachable on two public ports; [signal] is SIGINT. *)
Definition web : Config :=
  {| name := "web"; command := ["serve"]; workdir := "/srv";
     env := {["HOME" := "/root"]}; ports := [80; 443]%Z; signal := 2 |}.

(** A first client enters [use()] and the run loop allocates the ports.
    The operating system hands out port 50000 for both allocations: each
    probe socket is closed before the next one is bound. *)
Definition allocated : list action :=
  [Enter; Resume 0 Go; Loop Go; Loop Go; Tick (seconds 10); Loop Go;
   Loop (Port 0 50000); Loop (Port 0 50000)].

(** The run loop spawns the child and sets [_service_started]; the client
    is resumed inside its scope. *)
Definition cold_start : list action :=
  allocated ++ [Loop Go; Loop Spawned; Resume 0 Go].

(** A second client is accepted; the first leaves its scope, which takes
    [_users] to 0 and starts the timer task. *)
Definition last_user_leaves : list action :=
  cold_start ++ [Enter; Resume 0 (BodyEnds false)].

(** The timer task initialises, [use()] of the first client returns, and
    the second client, which ran in between, proceeds into its scope. *)
Definition timer_arms : list action :=
  [Resume 2 Go; Resume 0 Go; Resume 1 Go].

(** The idle window passes and the timer task calls [stop()]. *)
Definition timer_fires : list action :=
  [Tick (seconds 600); Resume 2 Timeout].



(** As [cold_start], but [trio.open_process] raises. *)
Definition spawn_failure : list action :=
  allocated ++ [Loop Go; Loop SpawnError; Loop Go].

(** The child exits while the client is still in its scope; the run loop
    cleans up, finds [_service_wanted] still set and launches again. *)
Definition relaunch : list action :=
  cold_start ++ [Exit 0; Loop Go; Loop Go; Loop Go; Tick (seconds 10); Loop Go].

(** The state a run ends in; the initial state when the schedule cannot
    be followed. *)
Definition state_after (cfg : Config) (acts : list action) : World :=
  default (init 0) (run cfg (init 0) acts).

(** *** [wait_for_port] *)

(** What [wait_for_port] does. *)
Inductive probe_event :=
| Open                         (* [trio.open_tcp_stream] was awaited *)
| Close                        (* [stream.aclose()] was awaited *)
| Nap (d : time).              (* [trio.sleep] was awaited *)

(** [wait_for_port], run against the answers of the outside world:
    [true] when [trio.open_tcp_stream] returns a stream, [false] when it
    raises an [OSError].  The result is the trace and whether the function
    has returned. *)
Fixpoint wait_for_port (answers : list bool) : list probe_event * bool :=
  match answers with
  | [] => ([], false)
  | true :: _ => ([Open; Close], true)
  | false :: answers =>
      let (evs, returned) := wait_for_port answers in
      (Open :: Nap 100 :: evs, returned)
  end.

(** *** Calls of [stop()] *)





(** *** Further observations *)

(** How far a task has got in the code it runs: every step of a task
    takes it to a larger number. *)
Definition progress (pc : task_pc) : nat :=
  match pc with
  | UEntry | TInit _ | SEntry => 0
  | UWaitStarted _ | TWait _ _ => 1
  | UInScope | SWait _ _ => 2
  | UStarting | SKillWait _ => 3
  | UStarted | TReturned | SReturned | SCrashed => 4
  | UReturned => 5
  end.

(** A task is where it was, or further on. *)
Definition advanced (pc pc' : task_pc) : Prop :=
  pc' = pc ∨ progress pc < progress pc'.

(** A controller that no task has asked to [use()]: nothing has left it,
    no event is set, the run loop has at most reached its first wait and
    all tasks are callers of [stop()]. *)
Definition undisturbed (w : World) : Prop :=
  effects w = [] ∧ _process (self w) = None ∧ fired w = ∅ ∧
  (run_loop w = LStart ∨ ∃ e, run_loop w = LWaitWanted e) ∧
  Forall (λ pc, pc = SEntry ∨ pc = SReturned) (tasks w).

(** Which child processes can be running at each suspension point of
    [_run_loop]: the one the loop waits for, between the spawn and the
    reap, and none otherwise. *)
Definition child_inv (w : World) : Prop :=
  match run_loop w with
  | LWaitProcess p =>
      _process (self w) = Some p ∧
      ∀ q, q < next_process w → q = p ∨ q ∈ exited w
  | LCleanup false =>
      is_Some (_process (self w)) ∧ ∀ q, q < next_process w → q ∈ exited w
  | _ =>
      _process (self w) = None ∧ ∀ q, q < next_process w → q ∈ exited w
  end.

(** The schedule that serves the first client of a fresh controller: the
    client enters [use()], the run loop sees [_service_wanted], sleeps
    until the clock reads 10 seconds, allocates one port after the other
    (the operating system answers [a] every time), spawns the child, and
    the client is resumed. *)
Definition first_use (cfg : Config) (t0 : time) (a : Z) : list action :=
  [Enter; Resume 0 Go; Loop Go; Loop Go; Tick (Z.max 0 (seconds 10 - t0)); Loop Go]
  ++ ((λ _, Loop (Port 0 a)) <$> ports cfg)
  ++ [Loop Go; Loop Spawned; Resume 0 Go].

(** The last user has left and the timer task has armed itself; a second
    client has been accepted and has not run yet. *)
Definition timer_armed : list action := last_user_leaves ++ [Resume 2 Go].

(** A task is about to call [stop()] on the running service. *)
Definition stop_requested : list action := cold_start ++ [Stop].

(** What the run loop does after the child has exited: clean up, look at
    [_service_wanted] again, sleep to the end of the flap window, launch. *)
Definition restart (w : World) : list action :=
  [Loop Go; Loop Go; Loop Go;
   Tick (Z.max 0 (_executable_last_started (self w) + seconds 10 - now w)); Loop Go].

End Service.

Module Tcp.

(** ** [proxy]: opening the backend connection *)

(** What one [await trio.open_tcp_stream(...)] does: it returns a stream,
    or raises an [OSError] whose [__cause__] is, or is not, a
    [ConnectionRefusedError]. *)
Inductive connect_outcome :=
| Connects
| OSError (cause_is_refused : bool).

(** What [proxy] does while it opens the connection. *)
Inductive connect_event :=
| Attempt                      (* [trio.open_tcp_stream] was awaited *)
| Sleep (d : time).            (* [trio.sleep] was awaited *)

Inductive connect_result :=
| Opened                       (* the loop was left through [break] *)
| Raised                       (* the [OSError] was re-raised *)
| Retrying.                    (* the next attempt has not been answered yet *)

(** One pass through the body of the [while True] loop of [proxy], for an
    attempt that ended as [o] and a clock that read [t] in the handler:
    [None] when the loop goes round again, the result otherwise. *)
Definition attempt (raise_after : time) (o : connect_outcome) (t : time)
  : option connect_result :=
  match o with
  | Connects => Some Opened
  | OSError cause_is_refused =>
      if negb cause_is_refused then Some Raised
      else if bool_decide (raise_after < t)%Z then Some Raised
      else None
  end.

(** The loop, run against the answers of the outside world: the outcome
    of each attempt and the clock reading taken after it. *)
Fixpoint connect_loop (raise_after : time) (answers : list (connect_outcome * time))
  : list connect_event * connect_result :=
  match answers with
  | [] => ([], Retrying)
  | (o, t) :: answers =>
      match attempt raise_after o t with
      | Some r => ([Attempt], r)
      | None =>
          let (evs, r) := connect_loop raise_after answers in
          (Attempt :: Sleep 100 :: evs, r)
      end
  end.

(** [proxy] up to the end of its connect loop; [entry] is the clock
    reading on entry. *)
Definition proxy_connect (entry : time) (answers : list (connect_outcome * time))
  : list connect_event * connect_result :=
  connect_loop (entry + seconds 20)%Z answers.

(** The trace of attempts that were each answered by a sleep and a
    retry. *)
Definition retried (answers : list (connect_outcome * time)) : list connect_event :=
  answers ≫= λ _, [Attempt; Sleep 100].

(** The clock readings of a run are those of a clock that does not go
    back and of a [trio.sleep(0.1)] that sleeps at least 100 ms: the first
    reading is not before [t], each later one at least 100 ms after the
    one before. *)
Fixpoint paced (t : time) (answers : list (connect_outcome * time)) : Prop :=
  match answers with
  | [] => True
  | (_, t') :: answers => (t ≤ t')%Z ∧ paced (t' + 100)%Z answers
  end.

(** ** [proxy]: the two copy tasks *)

Abbreviation bytes := (list Byte.byte) (only parsing).

(** Where a [one_way_proxy] task is suspended. *)
Inductive copy_pc :=
| Receiving                    (* [await source.receive_some()] *)
| Sending (data : bytes)       (* [await sink.send_all(data)] *)
| Finished                     (* returned, after [cancel_scope.cancel()] *)
| Cancelled.                   (* left by [trio.Cancelled] *)

(** What the scheduler hands to a copy task when it resumes it. *)
Inductive io :=
| Received (data : bytes)      (* [receive_some] returned [data] *)
| Sent                         (* [send_all] returned *)
| Broken                       (* the awaited call raised [trio.BrokenResourceError] *)
| Cancel.                      (* the awaited call raised [trio.Cancelled] *)

(** A stream as [proxy] sees it: what was written to it, and whether
    [aclose] was called on it. *)
Record stream := {
  written : list bytes;
  closed : bool;
}.

Inductive direction := Upstream | Downstream.

(** The nursery of [proxy] with its two children. *)
Record pump := {
  incoming : stream;
  outgoing : stream;
  upstream : copy_pc;          (* [one_way_proxy(incoming, outgoing, ...)] *)
  downstream : copy_pc;        (* [one_way_proxy(outgoing, incoming, ...)] *)
  cancel_called : bool;        (* [nursery.cancel_scope.cancel()] was called *)
  stdout : list string;
}.

Definition send (data : bytes) (s : stream) : stream :=
  {| written := written s ++ [data]; closed := closed s |}.

(** A checkpoint inside a cancelled scope raises [trio.Cancelled]. *)
Definition checkpoint (cancelled : bool) (pc : copy_pc) : copy_pc :=
  if cancelled then Cancelled else pc.

(** One step of [one_way_proxy]: the new program counter, whether
    [cancel_scope.cancel()] was called, the data that reached the sink and
    what was printed. *)
Definition one_way_proxy (cancelled : bool) (pc : copy_pc) (i : io)
  : option (copy_pc * bool * option bytes * list string) :=
  match pc, i with
  | Receiving, Received [] => Some (Finished, true, None, [])
  | Receiving, Received data => Some (checkpoint cancelled (Sending data), false, None, [])
  | Sending data, Sent => Some (checkpoint cancelled Receiving, false, Some data, [])
  | Receiving, Broken | Sending _, Broken => Some (Finished, true, None, ["broken pipe"])
  | Receiving, Cancel | Sending _, Cancel =>
      if cancelled then Some (Cancelled, false, None, []) else None
  | _, _ => None
  end.

Definition task_of (d : direction) (s : pump) : copy_pc :=
  match d with Upstream => upstream s | Downstream => downstream s end.

(** The scheduler resumes the copy task of direction [d]. *)
Definition copy_step (s : pump) (a : direction * io) : option pump :=
  let (d, i) := a in
  match one_way_proxy (cancel_called s) (task_of d s) i with
  | None => None
  | Some (pc, cancel, delivered, out) =>
      let sink_gets (x : stream) := from_option (λ data, send data x) x delivered in
      Some match d with
           | Upstream =>
               {| incoming := incoming s; outgoing := sink_gets (outgoing s);
                  upstream := pc; downstream := downstream s;
                  cancel_called := cancel || cancel_called s;
                  stdout := stdout s ++ out |}
           | Downstream =>
               {| incoming := sink_gets (incoming s); outgoing := outgoing s;
                  upstream := upstream s; downstream := pc;
                  cancel_called := cancel || cancel_called s;
                  stdout := stdout s ++ out |}
           end
  end.

Fixpoint copy_run (s : pump) (acts : list (direction * io)) : option pump :=
  match acts with
  | [] => Some s
  | a :: acts => s' ← copy_step s a; copy_run s' acts
  end.

(** The two [start_soon] calls: both children are started on open
    streams and reach their first [await]. *)
Definition copy_start : pump :=
  {| incoming := {| written := []; closed := false |};
     outgoing := {| written := []; closed := false |};
     upstream := Receiving; downstream := Receiving;
     cancel_called := false; stdout := [] |}.

Definition stopped (pc : copy_pc) : bool :=
  match pc with Finished | Cancelled => true | _ => false end.

(** The nursery block is left, and [proxy] returns, once both children
    are done. *)
Definition proxy_returned (s : pump) : bool :=
  stopped (upstream s) && stopped (downstream s).

(** The stream the copy task of direction [d] writes to. *)
Definition sink_of (d : direction) (s : pump) : stream :=
  match d with Upstream => outgoing s | Downstream => incoming s end.

Definition same_direction (d d' : direction) : bool :=
  match d, d' with
  | Upstream, Upstream | Downstream, Downstream => true
  | _, _ => false
  end.

(** The non-empty chunks that [receive_some] has handed to the copy task
    of direction [d] along a run. *)
Fixpoint received (d : direction) (acts : list (direction * io)) : list bytes :=
  match acts with
  | [] => []
  | (d', Received (b :: data)) :: acts =>
      if same_direction d d' then (b :: data) :: received d acts
      else received d acts
  | _ :: acts => received d acts
  end.

(** What a copy task still holds of what it has received. *)
Definition in_flight (pc : copy_pc) : list bytes :=
  match pc with Sending data => [data] | _ => [] end.

(** What the sink of a direction has been sent, followed by the chunk
    the copy task still holds, is what the task has received; once the
    task has stopped, the sink has all of it but possibly the last chunk. *)
Definition forwarded (d : direction) (s : pump) (got : list bytes) : Prop :=
  if stopped (task_of d s)
  then written (sink_of d s) `prefix_of` got ∧
       length got ≤ S (length (written (sink_of d s)))
  else written (sink_of d s) ++ in_flight (task_of d s) = got.

(** The client sends "hi", the backend echoes it, the client hangs up
    and the other copy task is cancelled. *)
Definition echo : list (direction * io) :=
  [(Upstream, Received [Byte.x68; Byte.x69]); (Upstream, Sent);
   (Downstream, Received [Byte.x68; Byte.x69]); (Downstream, Sent);
   (Upstream, Received []); (Downstream, Cancel)].

(** The incoming side reaches end-of-stream; the other copy task is
    cancelled. *)
Definition client_hangs_up : list (direction * io) :=
  [(Upstream, Received []); (Downstream, Cancel)].

End Tcp.

(** * Properties of the service controller *)

Module ServiceFacts.

Import Service.

Local Open Scope Z_scope.

Lemma open_scopes_app ts pc : open_scopes (ts ++ [pc]) = open_scopes ts + in_scope pc.
Proof. induction ts as [|x ts IH]; simpl; lia. Qed.

Lemma open_scopes_insert ts (t : nat) old new :
  ts !! t = Some old →
  open_scopes (<[t := new]> ts) = open_scopes ts - in_scope old + in_scope new.
Proof.
  revert t. induction ts as [|x ts IH]; intros [|t] Hl; simplify_eq/=.
  - lia.
  - rewrite (IH _ Hl). lia.
Qed.

Lemma open_scopes_nonneg ts : 0 ≤ open_scopes ts.
Proof. induction ts as [|[] ts IH]; simpl; lia. Qed.

(** *** The child environment *)

Lemma port_var_inj p q : port_var p = port_var q → p = q.
Proof.
  unfold port_var, str. intros H%(inj (String.append _)). by apply (inj pretty) in H.
Qed.

Lemma foldl_add_other (l : list (Z * Z)) m k :
  (∀ item, item ∈ l → k ≠ port_var item.1) →
  foldl add_port_var m l !! k = m !! k.
Proof.
  revert m. induction l as [|x l IH]; intros m Hk; simpl; [done|].
  rewrite IH by (intros item Hin; apply Hk; by right).
  unfold add_port_var. rewrite lookup_insert_ne; [done|].
  intros Heq. by apply (Hk x); [left|].
Qed.

Lemma foldl_add_member (l : list (Z * Z)) m port a :
  NoDup (l.*1) → (port, a) ∈ l →
  foldl add_port_var m l !! port_var port = Some (str a).
Proof.
  revert m. induction l as [|x l IH]; intros m Hnd Hin; simpl.
  { by apply elem_of_nil in Hin. }
  apply NoDup_cons in Hnd as [Hx Hnd].
  apply elem_of_cons in Hin as [<-|Hin]; [|by apply IH].
  rewrite foldl_add_other.
  - unfold add_port_var. simpl. by rewrite lookup_insert_eq.
  - intros item Hitem Heq. apply port_var_inj in Heq. simpl in *. subst.
    apply Hx. apply list_elem_of_fmap. by exists item.
Qed.

(** Every entry of the port map reaches the environment under its own
    name. *)
Lemma port_vars_lookup (pm : gmap Z Z) port a :
  pm !! port = Some a → port_vars pm !! port_var port = Some (str a).
Proof.
  intros Hpm. unfold port_vars. apply (foldl_add_member _ ∅).
  - apply NoDup_fst_map_to_list.
  - by apply elem_of_map_to_list.
Qed.

(** No other name is introduced. *)
Lemma port_vars_other (pm : gmap Z Z) k :
  (∀ port, is_Some (pm !! port) → k ≠ port_var port) →
  port_vars pm !! k = None.
Proof.
  intros Hk. unfold port_vars.
  rewrite (foldl_add_other _ ∅); [done|].
  intros [port a] Hin%elem_of_map_to_list. apply Hk. by exists a.
Qed.

(** Case analysis on the branches taken by a step [H]. *)
Ltac split_step :=
  repeat (match goal with
          | H : context [match ?x with _ => _ end] |- _ =>
              match type of H with _ = Some _ => destruct x eqn:? end
          end; simplify_eq/=).

(** [task_status.started()] touches nothing but the program counter of
    the starting task. *)
Lemma started_frame parent w :
  self (task_status_started parent w) = self w ∧
  fired (task_status_started parent w) = fired w ∧
  next_event (task_status_started parent w) = next_event w ∧
  now (task_status_started parent w) = now w ∧
  next_process (task_status_started parent w) = next_process w ∧
  exited (task_status_started parent w) = exited w ∧
  run_loop (task_status_started parent w) = run_loop w ∧
  effects (task_status_started parent w) = effects w.
Proof. unfold task_status_started. by repeat case_match. Qed.

Lemma started_self parent w : self (task_status_started parent w) = self w.
Proof. apply started_frame. Qed.
Lemma started_fired parent w : fired (task_status_started parent w) = fired w.
Proof. apply started_frame. Qed.
Lemma started_next_event parent w :
  next_event (task_status_started parent w) = next_event w.
Proof. apply started_frame. Qed.
Lemma started_now parent w : now (task_status_started parent w) = now w.
Proof. apply started_frame. Qed.
Lemma started_next_process parent w :
  next_process (task_status_started parent w) = next_process w.
Proof. apply started_frame. Qed.
Lemma started_exited parent w : exited (task_status_started parent w) = exited w.
Proof. apply started_frame. Qed.
Lemma started_run_loop parent w : run_loop (task_status_started parent w) = run_loop w.
Proof. apply started_frame. Qed.
Lemma started_effects parent w : effects (task_status_started parent w) = effects w.
Proof. apply started_frame. Qed.

Lemma started_length parent w :
  length (tasks (task_status_started parent w)) = length (tasks w).
Proof.
  unfold task_status_started. repeat case_match; simpl; by rewrite ?length_insert.
Qed.

Lemma started_open_scopes parent w :
  open_scopes (tasks (task_status_started parent w)) = open_scopes (tasks w).
Proof.
  unfold task_status_started. repeat case_match; simpl; try done.
  erewrite open_scopes_insert by done. simpl. lia.
Qed.

(** A task other than one suspended in [nursery.start] keeps its program
    counter. *)
Lemma started_lookup parent w (t : nat) pc :
  tasks w !! t = Some pc → pc ≠ UStarting →
  tasks (task_status_started parent w) !! t = Some pc.
Proof.
  intros Ht Hpc. unfold task_status_started.
  destruct (tasks w !! parent) as [[]|] eqn:Hp; simpl; try done.
  rewrite list_lookup_insert_ne; [done|]. intros ->. congruence.
Qed.

(** [stop()], up to its first [await], touches nothing but the program
    counter of its caller and the list of effects, and launches nothing. *)
Lemma stop_frame cfg t w :
  self (stop cfg t w) = self w ∧
  fired (stop cfg t w) = fired w ∧
  next_event (stop cfg t w) = next_event w ∧
  now (stop cfg t w) = now w ∧
  next_process (stop cfg t w) = next_process w ∧
  exited (stop cfg t w) = exited w ∧
  run_loop (stop cfg t w) = run_loop w ∧
  launches (effects (stop cfg t w)) = launches (effects w) ∧
  spawn_envs (effects (stop cfg t w)) = spawn_envs (effects w).
Proof. unfold stop. by case_match. Qed.

Lemma stop_self cfg t w : self (stop cfg t w) = self w.
Proof. apply stop_frame. Qed.
Lemma stop_fired cfg t w : fired (stop cfg t w) = fired w.
Proof. apply stop_frame. Qed.
Lemma stop_next_event cfg t w : next_event (stop cfg t w) = next_event w.
Proof. apply stop_frame. Qed.
Lemma stop_now cfg t w : now (stop cfg t w) = now w.
Proof. apply stop_frame. Qed.
Lemma stop_next_process cfg t w : next_process (stop cfg t w) = next_process w.
Proof. apply stop_frame. Qed.
Lemma stop_exited cfg t w : exited (stop cfg t w) = exited w.
Proof. apply stop_frame. Qed.
Lemma stop_run_loop cfg t w : run_loop (stop cfg t w) = run_loop w.
Proof. apply stop_frame. Qed.
Lemma stop_launches cfg t w : launches (effects (stop cfg t w)) = launches (effects w).
Proof. apply stop_frame. Qed.
Lemma stop_spawn_envs cfg t w :
  spawn_envs (effects (stop cfg t w)) = spawn_envs (effects w).
Proof. apply stop_frame. Qed.

Lemma stop_open_scopes cfg (t : nat) w pc :
  tasks w !! t = Some pc →
  open_scopes (tasks (stop cfg t w)) = open_scopes (tasks w) - in_scope pc.
Proof.
  intros Ht. unfold stop. case_match; simpl;
    erewrite open_scopes_insert by done; simpl; lia.
Qed.

Create Rewrite HintDb frame.

#[local] Hint Rewrite stop_self stop_fired stop_next_event stop_now
  stop_next_process stop_exited stop_run_loop stop_launches stop_spawn_envs : frame.

#[local] Arguments stop : simpl never.

#[local] Hint Rewrite started_self started_fired started_next_event started_now
  started_next_process started_exited started_run_loop started_effects
  started_open_scopes : frame.

#[local] Arguments task_status_started : simpl never.

Section Controller.

Context (cfg : Config) (t0 : time).

Lemma run_snoc w acts a :
  run cfg w (acts ++ [a]) = run cfg w acts ≫= λ w', step cfg w' a.
Proof.
  revert w. induction acts as [|b acts IH]; intros w; simpl.
  - by destruct (step cfg w a).
  - destruct (step cfg w b); simpl; [apply IH | done].
Qed.

(** Induction over the reachable states. *)
Lemma reachable_ind (P : World → Prop) :
  P (init t0) →
  (∀ w a w', reachable cfg t0 w → P w → step cfg w a = Some w' → P w') →
  ∀ w, reachable cfg t0 w → P w.
Proof.
  intros Hinit Hstep w [acts Hrun]. revert w Hrun.
  induction acts as [|a acts IH] using rev_ind; intros w Hrun.
  - by simplify_eq/=.
  - rewrite run_snoc in Hrun.
    destruct (run cfg (init t0) acts) as [w1|] eqn:Hw1; simplify_eq/=.
    eapply Hstep; [by exists acts | by apply IH | done].
Qed.

Lemma reachable_step w a w' :
  reachable cfg t0 w → step cfg w a = Some w' → reachable cfg t0 w'.
Proof.
  intros [acts Hrun] Hstep. exists (acts ++ [a]).
  by rewrite run_snoc, Hrun.
Qed.

(** The reference count equals the number of tasks inside a scope. *)
Lemma users_count w :
  reachable cfg t0 w → _users (self w) = open_scopes (tasks w).
Proof.
  revert w. apply reachable_ind; [done|]. intros w a w' _ IH Hstep.
  destruct a as [dt|p| | |i|t i]; simpl in Hstep.
  - case_bool_decide; by simplify_eq/=.
  - case_bool_decide; by simplify_eq/=.
  - simplify_eq/=. rewrite open_scopes_app. simpl. lia.
  - simplify_eq/=. rewrite open_scopes_app. simpl. lia.
  - unfold step_loop, loop_top, loop_finally in Hstep.
    repeat (case_match; simplify_eq/=); done.
  - unfold step_task in Hstep.
    destruct (tasks w !! t) as [pc|] eqn:Ht; [|done].
    destruct pc, i; simplify_eq/=; split_step; autorewrite with frame;
      rewrite ?open_scopes_app, ?(open_scopes_insert _ _ _ _ Ht),
        ?(stop_open_scopes _ _ _ _ Ht); simpl; try lia.
    erewrite open_scopes_insert by (by apply started_lookup).
    autorewrite with frame. simpl. lia.
Qed.

Lemma events_wf_reachable w : reachable cfg t0 w → events_wf w.
Proof.
  revert w. apply reachable_ind.
  { repeat split; simpl; try lia. set_solver. }
  intros w a w' _ (Hne & Hw & Hs & Hf) Hstep. unfold events_wf.
  destruct a as [dt|p| | |i|t i]; simpl in Hstep.
  - case_bool_decide; by simplify_eq/=.
  - case_bool_decide; by simplify_eq/=.
  - by simplify_eq/=.
  - by simplify_eq/=.
  - unfold step_loop, loop_top, loop_finally in Hstep.
    repeat (case_match; simplify_eq/=); repeat split; try done; try lia.
    + intros x [->%elem_of_singleton|?]%elem_of_union; [lia | by apply Hf].
    + intros x Hx. apply Hf in Hx. lia.
  - unfold step_task in Hstep.
    destruct (tasks w !! t) as [pc|] eqn:Ht; [|done].
    destruct pc, i; simplify_eq/=; split_step; autorewrite with frame;
      repeat split; try done; try lia.
    all: try (intros x [->%elem_of_singleton|?]%elem_of_union; [lia | by apply Hf]).
    all: intros x Hx; apply Hf in Hx; lia.
Qed.

Lemma elem_of_delete_or (pending : list Z) (i : nat) x port :
  pending !! i = Some x → port ∈ pending → port = x ∨ port ∈ delete i pending.
Proof.
  intros Hi Hp. rewrite (delete_Permutation _ _ _ Hi) in Hp.
  by apply elem_of_cons in Hp.
Qed.

Lemma loop_inv_reachable w : reachable cfg t0 w → loop_inv cfg w.
Proof.
  revert w. apply reachable_ind.
  { unfold loop_inv; simpl. set_solver. }
  intros w a w' Hw IH Hstep.
  destruct (events_wf_reachable w Hw) as (Hne & Hwl & Hsl & Hf).
  unfold loop_inv in *.
  destruct a as [dt|p| | |i|t i]; simpl in Hstep.
  - case_bool_decide; by simplify_eq/=.
  - case_bool_decide; by simplify_eq/=.
  - by simplify_eq/=.
  - by simplify_eq/=.
  - unfold step_loop, loop_top, loop_finally in Hstep.
    destruct (run_loop w) as [|e|d|pending| |p|raising|] eqn:Hl;
      destruct i as [| |k a|k| | |r]; simplify_eq/=; try done.
    + (* LWaitWanted *)
      by case_match; simplify_eq/=.
    + (* LSleep: a fresh, empty port map *)
      case_bool_decide; simplify_eq/=. split; [done|].
      exists ∅. split_and!; [done| | |].
      * by intros port a ?%lookup_empty_Some.
      * auto.
      * intros port [?|[a ?%lookup_empty_Some]]; done.
    + (* LAlloc: the nursery block is left *)
      destruct IH as (Hns & pm & Hpm & Hr & Hall & Hsub).
      destruct pending; simplify_eq/=. rewrite Hpm in Hstep. simplify_eq/=.
      split; [done|]. exists pm. split_and!; [done..|].
      intros port. split; [by auto|].
      intros [[]%elem_of_nil|?]%Hall; done.
    + (* LAlloc: one [get_port] child finishes *)
      destruct IH as (Hns & pm & Hpm & Hr & Hall & Hsub).
      destruct (pending !! k) as [port_to_map|] eqn:Hi; simplify_eq/=.
      rewrite Hpm in Hstep.
      unfold ephemeral in Hstep. case_bool_decide; simplify_eq/=.
      split; [done|]. eexists. split_and!; [done| | |].
      * intros port b. rewrite lookup_insert. case_decide; [by intros [= <-]|by apply Hr].
      * intros port Hport. rewrite lookup_insert. case_decide; [by right|].
        destruct (Hall _ Hport) as [Hin|?]; [|by right].
        destruct (elem_of_delete_or _ _ _ _ Hi Hin); [congruence|by left].
      * intros port. rewrite lookup_insert. case_decide as Heq.
        -- intros _. subst. apply Hsub. left. by eapply list_elem_of_lookup_2.
        -- intros [?%list_elem_of_delete_inv|?]; apply Hsub; auto.
    + (* LAlloc: one [get_port] child raises *)
      destruct IH as (Hns & _). by case_match; simplify_eq/=.
    + (* LSpawn: the process was created *)
      destruct IH as (Hns & pm & Hpm & Hr & Hpop).
      split; [exists (next_process w); split; [done|lia] | by exists pm].
    + (* LSpawn: [open_process] raised *)
      by destruct IH.
    + (* LWaitProcess *)
      by case_match; simplify_eq/=.
    + (* LCleanup *)
      destruct raising; simplify_eq/=; [done|].
      intros ?%Hf. lia.
  - unfold step_task in Hstep.
    destruct (tasks w !! t) as [pc|] eqn:Ht; [|done].
    destruct pc, i; simplify_eq/=;
      split_step; autorewrite with frame; try done.
    all: destruct (run_loop w) as [| | | | | |[]|]; try done.
    all: try (destruct IH as [IH ?]; split; [|done]).
    all: first [ by match goal with H : _process _ = _ |- _ => rewrite H end
               | apply not_elem_of_union; split; [by apply not_elem_of_singleton|done] ].
Qed.


(** The deadline of a pending [sleep_until] and the attribute agree with
    the recorded launches. *)
Lemma launch_inv_reachable w : reachable cfg t0 w → launch_inv w.
Proof.
  revert w. apply reachable_ind.
  { by repeat split. }
  intros w a w' _ (Hsp & Hhd & Hdl) Hstep. unfold launch_inv.
  destruct a as [dt|p| | |i|t i]; simpl in Hstep.
  - case_bool_decide; by simplify_eq/=.
  - case_bool_decide; by simplify_eq/=.
  - by simplify_eq/=.
  - by simplify_eq/=.
  - unfold step_loop, loop_top, loop_finally in Hstep.
    destruct (run_loop w) as [|e|d|pending| |p|raising|] eqn:Hl;
      destruct i as [| |k a|k| | |r]; simplify_eq/=; try done.
    + case_match; simplify_eq/=. split_and!; [done..|]. by intros ? [= <-].
    + case_bool_decide as Hd; simplify_eq/=.
      rewrite (Hdl _ eq_refl) in Hd.
      split_and!; [|by intros ? [= <-]|done].
      destruct (launches (effects w)) as [|t ts] eqn:Hts; [done|].
      split; [|done]. rewrite <-(Hhd t eq_refl). done.
    + split_step; by split_and!.
    + split_step; by split_and!.
    + split_step; by split_and!.
    + split_step; by split_and!.
    + destruct raising; simplify_eq/=; by split_and!.
  - unfold step_task in Hstep.
    destruct (tasks w !! t) as [pc|] eqn:Ht; [|done].
    destruct pc, i; simplify_eq/=; split_step; autorewrite with frame;
      try done.
Qed.

(** Once an exception is on its way out of [_run_loop], or has left it,
    the loop does not come back and nothing is launched any more. *)
Lemma loop_over_step w a w' :
  loop_over w → step cfg w a = Some w' →
  loop_over w' ∧ launches (effects w') = launches (effects w).
Proof.
  unfold loop_over. intros Hover Hstep.
  destruct a as [dt|p| | |i|t i]; simpl in Hstep.
  - case_bool_decide; by simplify_eq/=.
  - case_bool_decide; by simplify_eq/=.
  - by simplify_eq/=.
  - by simplify_eq/=.
  - unfold step_loop in Hstep.
    destruct Hover as [Hl|Hl]; rewrite Hl in Hstep;
      destruct i; simplify_eq/=; auto.
  - unfold step_task in Hstep.
    destruct (tasks w !! t) as [pc|] eqn:Ht; [|done].
    destruct pc, i; simplify_eq/=; split_step; autorewrite with frame; done.
Qed.

Lemma loop_over_run acts : ∀ w w',
  loop_over w → run cfg w acts = Some w' →
  loop_over w' ∧ launches (effects w') = launches (effects w).
Proof.
  induction acts as [|a acts IH]; intros w w' Hover Hrun; simplify_eq/=; [done|].
  destruct (step cfg w a) as [w1|] eqn:Hstep; simplify_eq/=.
  destruct (loop_over_step _ _ _ Hover Hstep) as [Hover1 Heq1].
  destruct (IH _ _ Hover1 Hrun) as [? ?]. split; [done|congruence].
Qed.

Lemma spaced_lookup gap ts (i : nat) earlier later :
  spaced gap ts → ts !! i = Some later → ts !! S i = Some earlier →
  earlier + gap ≤ later.
Proof.
  revert i. induction ts as [|x [|y ts] IH]; intros i Hsp Hl He; simplify_eq/=.
  destruct Hsp as [Hxy Hsp]. destruct i as [|i]; simplify_eq/=; [done|].
  by apply (IH i).
Qed.

(** ** The reference count *)

(** C9. Whatever the interleaving of [use()] scopes, [_users] is never
    negative: it goes up by exactly one when a task passes the wait for
    [_service_started], down by exactly one when a task leaves the [with]
    body, normally or by an exception, and no other step changes it; a
    task inside the body can always leave it. *)
Theorem users_never_negative w a w' :
  reachable cfg t0 w → step cfg w a = Some w' →
  0 ≤ _users (self w) ∧ 0 ≤ _users (self w') ∧
  _users (self w') = _users (self w) + users_delta w a ∧
  ∀ (t : nat) raised, tasks w !! t = Some UInScope →
    is_Some (step cfg w (Resume t (BodyEnds raised))).
Proof.
  intros Hw Hstep.
  pose proof (reachable_step _ _ _ Hw Hstep) as Hw'.
  rewrite (users_count _ Hw), (users_count _ Hw').
  split_and!; try apply open_scopes_nonneg.
  - rewrite <-(users_count _ Hw), <-(users_count _ Hw').
    destruct a as [dt|p| | |i|t i]; simpl in Hstep.
    + case_bool_decide; simplify_eq/=. lia.
    + case_bool_decide; simplify_eq/=. lia.
    + simplify_eq/=. lia.
    + simplify_eq/=. lia.
    + unfold step_loop, loop_top, loop_finally in Hstep.
      destruct (run_loop w), i; simplify_eq/=; split_step; lia.
    + unfold step_task in Hstep. simpl.
      destruct (tasks w !! t) as [pc|] eqn:Ht; [|done].
      destruct pc, i; simplify_eq/=; split_step; autorewrite with frame;
        simpl; lia.
  - intros t raised Ht. simpl. unfold step_task. rewrite Ht.
    case_bool_decide; eauto.
Qed.

(** ** The started latch *)

(** C4. In every reachable state in which [_service_started] is set, the
    port map has exactly one entry for every port of the descriptor and
    [_process] holds a process object that [trio.open_process] has
    returned. *)
Theorem started_after_populated_and_spawned w :
  reachable cfg t0 w → is_set (_service_started (self w)) w = true →
  ∃ pm p, _port_map (self w) = Some pm ∧ populated cfg pm ∧
          _process (self w) = Some p ∧ (p < next_process w)%nat.
Proof.
  intros Hw Hset. unfold is_set in Hset. apply bool_decide_eq_true in Hset.
  pose proof (loop_inv_reachable _ Hw) as Hinv. unfold loop_inv in Hinv.
  destruct (run_loop w) as [| | | | | |[]|]; try done;
    try (by destruct Hinv);
    destruct Hinv as ((q & Hq & Hlt) & pm & Hpm & _ & Hpop); eauto 10.
Qed.

(** ** Flap suppression *)

(** C5. Any two consecutive values stamped into
    [_executable_last_started] by one controller are at least 10 seconds
    apart. *)
Theorem launches_ten_seconds_apart w (i : nat) earlier later :
  reachable cfg t0 w →
  launches (effects w) !! i = Some later →
  launches (effects w) !! S i = Some earlier →
  earlier + seconds 10 ≤ later.
Proof.
  intros Hw. destruct (launch_inv_reachable _ Hw) as (Hsp & _).
  by apply spaced_lookup.
Qed.

(** ** Spawn failure *)

(** C2, as the code has it.  When [trio.open_process] raises, the cleanup
    collaborator is still called, with the process handle as it is and the
    stop signal; when it returns the exception leaves [_run_loop]: the loop
    never runs again and nothing is launched any more. *)
Theorem spawn_failure_cleans_up_and_propagates w :
  run_loop w = LSpawn →
  ∃ w1, step cfg w (Loop SpawnError) = Some w1 ∧
        effects w1 = Cleanup (_process (self w)) (signal cfg) :: effects w ∧
        step cfg w1 (Loop Go) = Some (set_loop LCrashed w1) ∧
        ∀ acts w2, run cfg w1 acts = Some w2 →
          loop_over w2 ∧ launches (effects w2) = launches (effects w1).
Proof.
  intros Hl. eexists. split_and!.
  - simpl. unfold step_loop. by rewrite Hl.
  - done.
  - done.
  - intros acts w2. apply loop_over_run. by left.
Qed.

(** ** [stop()] *)

(** C10. A call of [stop()] while [_process] is [None] returns in the same
    step, sends no signal and leaves every attribute of the controller and
    every event flag as it was. *)
Theorem stop_without_process w (t : nat) :
  tasks w !! t = Some SEntry → _process (self w) = None →
  ∃ w', step cfg w (Resume t Go) = Some w' ∧
        tasks w' !! t = Some SReturned ∧
        self w' = self w ∧ fired w' = fired w ∧
        effects w' = effects w ∧ run_loop w' = run_loop w.
Proof.
  intros Ht Hp. exists (set_task t SReturned w). split_and!; try done.
  - simpl. unfold step_task, stop. by rewrite Ht, Hp.
  - simpl. apply list_lookup_insert_eq. by eapply lookup_lt_Some.
Qed.







(** ** The idle timer *)

(** A task suspended in [nursery.start] cannot be resumed before the
    child has called [task_status.started()]. *)
Lemma use_returns_only_after_handshake w (t : nat) i :
  tasks w !! t = Some UStarting → step cfg w (Resume t i) = None.
Proof. intros Ht. simpl. unfold step_task. rewrite Ht. by destruct i. Qed.

(** The first step of the timer task completes the handshake and
    replaces [_service_wanted] by a fresh, unset event: [use()] returns
    only after the replacement. *)
Lemma timer_init_replaces_wanted w (t : nat) parent w' :
  reachable cfg t0 w → tasks w !! t = Some (TInit parent) →
  step cfg w (Resume t Go) = Some w' →
  _service_wanted (self w') = next_event w ∧
  is_set (_service_wanted (self w')) w' = false ∧
  (tasks w !! parent = Some UStarting → tasks w' !! parent = Some UStarted).
Proof.
  intros Hw Ht Hstep. destruct (events_wf_reachable _ Hw) as (_ & _ & _ & Hf).
  simpl in Hstep. unfold step_task in Hstep. rewrite Ht in Hstep.
  simplify_eq/=. autorewrite with frame. split_and!; [done| |].
  - unfold is_set. apply bool_decide_eq_false. simpl. autorewrite with frame.
    intros ?%Hf. lia.
  - intros Hp. assert (parent ≠ t) as Hne by (intros ->; congruence).
    rewrite list_lookup_insert_ne by done.
    unfold task_status_started. rewrite Hp. simpl.
    apply list_lookup_insert_eq. by eapply lookup_lt_Some.
Qed.

(** ** The child environment *)

(** C8, as the code has it.  On every launch the environment handed to
    [trio.open_process] is the base environment overridden by one variable
    [PORT_<P>] for every public port [P] of the descriptor, whose value is
    the decimal representation of the backend port allocated for [P] in
    this launch's port map, a number between 1 and 65535; every other
    variable is as in the base environment. *)
Theorem launch_environment w :
  reachable cfg t0 w → run_loop w = LAlloc [] →
  ∃ pm, _port_map (self w) = Some pm ∧
    step cfg w (Loop Go) =
      Some (set_loop LSpawn
              (emit (OpenProcess (command cfg) (workdir cfg) (child_env (env cfg) pm)) w)) ∧
    (∀ port, port ∈ ports cfg →
       ∃ a, pm !! port = Some a ∧ 1 ≤ a ≤ 65535 ∧
            child_env (env cfg) pm !! port_var port = Some (str a)) ∧
    (∀ k, (∀ port, port ∈ ports cfg → k ≠ port_var port) →
       child_env (env cfg) pm !! k = env cfg !! k).
Proof.
  intros Hw Hl.
  pose proof (loop_inv_reachable _ Hw) as Hinv. unfold loop_inv in Hinv.
  rewrite Hl in Hinv. destruct Hinv as (_ & pm & Hpm & Hr & Hall & Hsub).
  exists pm. split_and!; [done| | |].
  - simpl. unfold step_loop. by rewrite Hl, Hpm.
  - intros port Hport.
    destruct (Hall _ Hport) as [[]%elem_of_nil|[a Ha]].
    exists a. split_and!; [done|by eapply Hr|by eapply Hr|].
    unfold child_env. apply lookup_union_Some_l. by apply port_vars_lookup.
  - intros k Hk. unfold child_env. rewrite lookup_union_r; [done|].
    apply port_vars_other. intros port Hsome. apply Hk, Hsub. by right.
Qed.

End Controller.

(** ** Concrete runs *)

Lemma reachable_state_after acts :
  is_Some (run web (init 0) acts) → reachable web 0 (state_after web acts).
Proof.
  intros [w Hw]. exists acts. unfold state_after. by rewrite Hw.
Qed.

Example cold_start_runs :
  run web (init 0) cold_start = Some (state_after web cold_start) ∧
  run_loop (state_after web cold_start) = LWaitProcess 0 ∧
  tasks (state_after web cold_start) = [UInScope] ∧
  _users (self (state_after web cold_start)) = 1.
Proof. by vm_compute. Qed.

Example relaunch_runs :
  launches (effects (state_after web relaunch)) = [seconds 20; seconds 10].
Proof. by vm_compute. Qed.

Lemma cold_start_reachable : reachable web 0 (state_after web cold_start).
Proof. apply reachable_state_after. vm_compute. by eexists. Qed.

Lemma users_never_negative_witness :
  let w := state_after web cold_start in
  let w' := state_after web (cold_start ++ [Resume 0 (BodyEnds true)]) in
  step web w (Resume 0 (BodyEnds true)) = Some w' ∧
  0 ≤ _users (self w) ∧ 0 ≤ _users (self w') ∧
  _users (self w') = _users (self w) + users_delta w (Resume 0 (BodyEnds true)) ∧
  ∀ (t : nat) raised, tasks w !! t = Some UInScope →
    is_Some (step web w (Resume t (BodyEnds raised))).
Proof.
  intros w w'.
  assert (step web w (Resume 0 (BodyEnds true)) = Some w') as Hstep
    by (vm_compute; reflexivity).
  split; [exact Hstep|].
  exact (users_never_negative web 0 w _ w' cold_start_reachable Hstep).
Defined.

Lemma started_after_populated_and_spawned_witness :
  ∃ pm p, _port_map (self (state_after web cold_start)) = Some pm ∧
          populated web pm ∧
          _process (self (state_after web cold_start)) = Some p ∧
          (p < next_process (state_after web cold_start))%nat.
Proof.
  apply (started_after_populated_and_spawned web 0 _ cold_start_reachable).
  vm_compute. reflexivity.
Defined.

Lemma launches_ten_seconds_apart_witness : seconds 10 + seconds 10 ≤ seconds 20.
Proof.
  apply (launches_ten_seconds_apart web 0 (state_after web relaunch) 0).
  - apply reachable_state_after. vm_compute. by eexists.
  - vm_compute. reflexivity.
  - vm_compute. reflexivity.
Defined.

Lemma spawn_failure_cleans_up_and_propagates_witness :
  let w := state_after web (allocated ++ [Loop Go]) in
  ∃ w1, step web w (Loop SpawnError) = Some w1 ∧
        effects w1 = Cleanup (_process (self w)) (signal web) :: effects w ∧
        step web w1 (Loop Go) = Some (set_loop LCrashed w1) ∧
        ∀ acts w2, run web w1 acts = Some w2 →
          loop_over w2 ∧ launches (effects w2) = launches (effects w1).
Proof.
  intros w. apply (spawn_failure_cleans_up_and_propagates web w).
  vm_compute. reflexivity.
Defined.

Lemma stop_without_process_witness :
  ∃ w', step web (state_after web [Stop]) (Resume 0 Go) = Some w' ∧
        tasks w' !! 0%nat = Some SReturned ∧
        self w' = self (state_after web [Stop]) ∧
        fired w' = fired (state_after web [Stop]) ∧
        effects w' = effects (state_after web [Stop]) ∧
        run_loop w' = run_loop (state_after web [Stop]).
Proof.
  apply (stop_without_process web (state_after web [Stop]) 0).
  - vm_compute. reflexivity.
  - vm_compute. reflexivity.
Defined.


Lemma launch_environment_witness :
  let w := state_after web allocated in
  ∃ pm, _port_map (self w) = Some pm ∧
    step web w (Loop Go) =
      Some (set_loop LSpawn
              (emit (OpenProcess (command web) (workdir web) (child_env (env web) pm)) w)) ∧
    (∀ port, port ∈ ports web →
       ∃ a, pm !! port = Some a ∧ 1 ≤ a ≤ 65535 ∧
            child_env (env web) pm !! port_var port = Some (str a)) ∧
    (∀ k, (∀ port, port ∈ ports web → k ≠ port_var port) →
       child_env (env web) pm !! k = env web !! k).
Proof.
  intros w. apply (launch_environment web 0 w).
  - apply reachable_state_after. vm_compute. by eexists.
  - vm_compute. reflexivity.
Defined.

(** C1 fails on the code.  The first client leaves its scope, [_users]
    goes from 1 to 0 and the timer task is started; before the timer task
    runs, the scheduler resumes a second client, which sets the old, already
    set [_service_wanted] and waits for [_service_started].  The timer task
    then replaces [_service_wanted] and [use()] of the first client returns,
    as the claim says, but the second client goes on into its scope: the
    count is 1, [_service_wanted] is unset and the timer is armed.  After
    600 seconds the timer sends the stop signal to the child of a service
    that is in use. *)
Theorem use_exit_is_not_atomic :
  ∃ w1 w2 w3 w4,
    run web (init 0) last_user_leaves = Some w1 ∧
    _users (self w1) = 0 ∧
    tasks w1 = [UStarting; UEntry; TInit 0] ∧
    _service_wanted (self w1) = 0%nat ∧
    step web w1 (Resume 1 Go) = Some w2 ∧
    tasks w2 = [UStarting; UWaitStarted 1; TInit 0] ∧
    _service_wanted (self w2) = 0%nat ∧
    run web w2 timer_arms = Some w3 ∧
    tasks w3 = [UReturned; UInScope; TWait 2 (seconds 610)] ∧
    _users (self w3) = 1 ∧
    _service_wanted (self w3) = 2%nat ∧
    is_set (_service_wanted (self w3)) w3 = false ∧
    run web w3 timer_fires = Some w4 ∧
    _users (self w4) = 1 ∧
    head (effects w4) = Some (SendSignal 0 2).
Proof.
  do 4 eexists. split_and!.
  1, 5, 8, 13: vm_compute; reflexivity.
  all: by vm_compute.
Qed.

(** C2 fails on the code: after a spawn failure [_service_wanted] is still
    set, but [_run_loop] has been left by the exception, and no schedule
    brings it back or launches anything. *)
Lemma spawn_failure_ends_run_loop :
  ∃ w, run web (init 0) spawn_failure = Some w ∧
       is_set (_service_wanted (self w)) w = true ∧
       run_loop w = LCrashed ∧
       head (effects w) = Some (Cleanup None 2) ∧
       ∀ acts w', run web w acts = Some w' →
         loop_over w' ∧ launches (effects w') = launches (effects w).
Proof.
  eexists. split_and!.
  1: vm_compute; reflexivity.
  1-3: by vm_compute.
  intros acts w'. apply loop_over_run. by right.
Qed.


(** C8 fails on the code: in this launch the two public ports receive the
    same backend port. *)
Lemma same_backend_port_twice :
  ∃ w e, run web (init 0) cold_start = Some w ∧
         head (spawn_envs (effects w)) = Some e ∧
         e !! port_var 80 = Some "50000" ∧
         e !! port_var 443 = Some "50000".
Proof.
  do 2 eexists. split_and!.
  1, 2: vm_compute; reflexivity.
  all: by vm_compute.
Qed.

(** * Further properties of the service controller *)

Section Behaviour.

Context (cfg : Config) (t0 : time).

(** ** Tasks only move forward *)

Lemma advanced_refl pc : advanced pc pc.
Proof. by left. Qed.

Lemma advanced_trans pc1 pc2 pc3 :
  advanced pc1 pc2 → advanced pc2 pc3 → advanced pc1 pc3.
Proof. unfold advanced. intros [->|?] [->|?]; auto. right. lia. Qed.

Lemma lookup_set_task (t u : nat) pc pc' (ts : list task_pc) :
  ts !! u = Some pc → (t = u → advanced pc pc') →
  ∃ pc'', <[t := pc']> ts !! u = Some pc'' ∧ advanced pc pc''.
Proof.
  intros Hu Hadv. destruct (decide (t = u)) as [->|Hne].
  - exists pc'. split; [|by apply Hadv].
    apply list_lookup_insert_eq. by eapply lookup_lt_Some.
  - exists pc. rewrite list_lookup_insert_ne by done. split; [done|by left].
Qed.

Lemma lookup_started parent w (u : nat) pc :
  tasks w !! u = Some pc →
  ∃ pc', tasks (task_status_started parent w) !! u = Some pc' ∧ advanced pc pc'.
Proof.
  intros Hu. unfold task_status_started.
  destruct (tasks w !! parent) as [[]|] eqn:Hp; simpl; eauto using advanced_refl.
  apply lookup_set_task; [done|]. intros ->. simplify_eq. right. simpl. lia.
Qed.

Lemma lookup_stop (t u : nat) w pc pcu :
  tasks w !! t = Some pc → (progress pc < 2)%nat → tasks w !! u = Some pcu →
  ∃ pc', tasks (stop cfg t w) !! u = Some pc' ∧ advanced pcu pc'.
Proof.
  intros Ht Hpc Hu. unfold stop.
  destruct (_process (self w)); simpl; (apply lookup_set_task; [done|]);
    intros ->; simplify_eq; right; simpl; lia.
Qed.

(** No step takes a task back: after any step every task is where it
    was or further on in its code. *)
Lemma step_advances w a w' (u : nat) pc :
  step cfg w a = Some w' → tasks w !! u = Some pc →
  ∃ pc', tasks w' !! u = Some pc' ∧ advanced pc pc'.
Proof.
  intros Hstep Hu.
  destruct a as [dt|p| | |i|t i]; simpl in Hstep.
  - case_bool_decide; simplify_eq/=. eauto using advanced_refl.
  - case_bool_decide; simplify_eq/=. eauto using advanced_refl.
  - simplify_eq/=. exists pc. split; [by apply lookup_app_l_Some|by left].
  - simplify_eq/=. exists pc. split; [by apply lookup_app_l_Some|by left].
  - unfold step_loop, loop_top, loop_finally in Hstep.
    destruct (run_loop w), i; simplify_eq/=; split_step;
      eauto using advanced_refl.
  - unfold step_task in Hstep.
    destruct (tasks w !! t) as [pct|] eqn:Ht; [|done].
    destruct pct, i; simplify_eq/=; split_step;
      try (by eapply lookup_stop; [done|simpl; lia|done]);
      try (by apply lookup_set_task; [done|intros ->; simplify_eq; right; simpl; lia]).
    + (* the last user leaves: the timer task is appended *)
      destruct (lookup_set_task t u pc UStarting (tasks w) Hu) as (pc' & Hpc' & Hadv).
      { intros ->. simplify_eq. right. simpl. lia. }
      exists pc'. split; [|done]. by apply lookup_app_l_Some.
    + (* the timer task initialises *)
      autorewrite with frame. destruct (decide (t = u)) as [->|Hne].
      * simplify_eq. eexists. split.
        { apply list_lookup_insert_eq. rewrite started_length.
          by eapply lookup_lt_Some. }
        right. simpl. lia.
      * rewrite list_lookup_insert_ne by done. by apply lookup_started.
Qed.

Lemma run_advances acts : ∀ w w' (u : nat) pc,
  run cfg w acts = Some w' → tasks w !! u = Some pc →
  ∃ pc', tasks w' !! u = Some pc' ∧ advanced pc pc'.
Proof.
  induction acts as [|a acts IH]; intros w w' u pc Hrun Hu; simplify_eq/=.
  { eauto using advanced_refl. }
  destruct (step cfg w a) as [w1|] eqn:Hstep; simplify_eq/=.
  destruct (step_advances _ _ _ _ _ Hstep Hu) as (pc1 & Hpc1 & Hadv1).
  destruct (IH _ _ _ _ Hrun Hpc1) as (pc2 & Hpc2 & Hadv2).
  exists pc2. split; [done|]. by eapply advanced_trans.
Qed.

(** ** Timeouts *)

(** The idle timer does not fire early: when the timeout of a timer
    task that is still waiting is delivered, at least 600 seconds have
    passed on the clock since the task was armed, and what the task then
    does is call [stop()]. *)
Theorem timer_waits_full_idle_window w (t : nat) parent w1 acts w2 e d w3 :
  tasks w !! t = Some (TInit parent) →
  step cfg w (Resume t Go) = Some w1 →
  run cfg w1 acts = Some w2 →
  tasks w2 !! t = Some (TWait e d) →
  step cfg w2 (Resume t Timeout) = Some w3 →
  now w + seconds 600 ≤ now w2 ∧ w3 = stop cfg t w2.
Proof.
  intros Ht Hstep Hrun Ht2 Hfire.
  assert (tasks w1 !! t = Some (TWait (next_event w) (now w + seconds 600))) as Ht1.
  { simpl in Hstep. unfold step_task in Hstep. rewrite Ht in Hstep.
    simplify_eq/=. autorewrite with frame.
    apply list_lookup_insert_eq. rewrite started_length. by eapply lookup_lt_Some. }
  destruct (run_advances _ _ _ _ _ Hrun Ht1) as (pc2 & Hpc2 & Hadv).
  rewrite Ht2 in Hpc2. simplify_eq.
  destruct Hadv as [[= -> ->]|Hlt]; [|simpl in Hlt; lia].
  simpl in Hfire. unfold step_task in Hfire. rewrite Ht2 in Hfire.
  case_bool_decide; by simplify_eq/=.
Qed.

(** The hard kill does not come early: when a call of [stop()] that found
    a process goes on to [kill()], at least 5 seconds have passed on the
    clock since it sent the stop signal; the kill goes to the process then
    held in [_process]. *)
Theorem kill_only_after_grace_period w (t : nat) p w1 acts w2 w3 :
  tasks w !! t = Some SEntry → _process (self w) = Some p →
  step cfg w (Resume t Go) = Some w1 →
  run cfg w1 acts = Some w2 →
  step cfg w2 (Resume t Timeout) = Some w3 →
  effects w1 = SendSignal p (signal cfg) :: effects w ∧
  now w + seconds 5 ≤ now w2 ∧
  ∀ q, _process (self w2) = Some q →
    effects w3 = Kill q :: effects w2 ∧ tasks w3 !! t = Some (SKillWait q).
Proof.
  intros Ht Hp Hstep Hrun Hfire.
  assert (t < length (tasks w))%nat as Hlen by by eapply lookup_lt_Some.
  simpl in Hstep. unfold step_task, stop in Hstep. rewrite Ht, Hp in Hstep.
  simplify_eq/=.
  edestruct (run_advances acts) as (pc2 & Hpc2 & Hadv); [exact Hrun| |].
  { simpl. by apply list_lookup_insert_eq. }
  simpl in Hfire. unfold step_task in Hfire. rewrite Hpc2 in Hfire.
  destruct Hadv as [->|Hlt].
  - case_bool_decide; [|done]. split_and!; [done..|].
    intros q Hq. rewrite Hq in Hfire. simplify_eq/=. split; [done|].
    apply list_lookup_insert_eq. by eapply lookup_lt_Some.
  - destruct pc2; simpl in Hlt; simplify_eq/=; lia.
Qed.

(** ** On demand only *)

Lemma undisturbed_step w a w' :
  undisturbed w → a ≠ Enter → step cfg w a = Some w' → undisturbed w'.
Proof.
  intros (Heff & Hp & Hf & Hl & Hts) Ha Hstep. unfold undisturbed.
  destruct a as [dt|p| | |i|t i]; simpl in Hstep; [| |done| | |].
  - case_bool_decide; by simplify_eq/=.
  - case_bool_decide; by simplify_eq/=.
  - simplify_eq/=. split_and!; try done. apply Forall_app. split; [done|].
    apply Forall_singleton. by left.
  - unfold step_loop, loop_top in Hstep.
    destruct Hl as [Hl|[e Hl]]; rewrite Hl in Hstep; destruct i; simplify_eq/=.
    + split_and!; eauto.
    + unfold is_set in Hstep. rewrite Hf in Hstep.
      rewrite bool_decide_eq_false_2 in Hstep by set_solver. done.
  - unfold step_task in Hstep.
    destruct (tasks w !! t) as [pc|] eqn:Ht; [|done].
    pose proof (Forall_lookup_1 _ _ _ _ Hts Ht) as [-> | ->];
      destruct i; simplify_eq/=.
    unfold stop. rewrite Hp. simpl. split_and!; try done.
    apply Forall_insert; [done|by right].
Qed.

(** The child is started on demand only: as long as no task has called
    [use()], whatever else happens (the clock advances, tasks call
    [stop()], the run loop is resumed), nothing is launched, no signal is
    sent and no process exists. *)
Theorem nothing_happens_without_use acts w :
  run cfg (init t0) acts = Some w → Enter ∉ acts →
  effects w = [] ∧ _process (self w) = None ∧ next_process w = 0%nat.
Proof.
  intros Hrun Hno.
  assert (undisturbed (init t0) ∧ next_process (init t0) = 0%nat) as Hinit.
  { repeat split; simpl; auto. }
  revert Hrun Hno Hinit. generalize (init t0).
  induction acts as [|a acts IH]; intros w0 Hrun Hno [Hund Hn]; simplify_eq/=.
  { by destruct Hund as (? & ? & _). }
  destruct (step cfg w0 a) as [w1|] eqn:Hstep; simplify_eq/=.
  apply not_elem_of_cons in Hno as [Ha Hno].
  apply (IH w1); [done..|]. split; [by eapply undisturbed_step|].
  destruct Hund as (_ & _ & _ & Hl & _).
  destruct a as [dt|p| | |i|t i]; simpl in Hstep; [| |done| | |].
  - case_bool_decide; by simplify_eq/=.
  - case_bool_decide; by simplify_eq/=.
  - by simplify_eq/=.
  - unfold step_loop, loop_top in Hstep.
    destruct Hl as [Hl|[e Hl]]; rewrite Hl in Hstep; destruct i;
      simplify_eq/=; split_step; done.
  - unfold step_task in Hstep.
    destruct (tasks w0 !! t) as [pc|] eqn:Ht; [|done].
    destruct pc, i; simplify_eq/=; split_step; autorewrite with frame; done.
Qed.

(** ** One child at a time *)

Lemma child_inv_reachable w : reachable cfg t0 w → child_inv w.
Proof.
  revert w. apply reachable_ind.
  { split; [done|]. simpl. lia. }
  intros w a w' _ IH Hstep. unfold child_inv in *.
  destruct a as [dt|p| | |i|t i]; simpl in Hstep.
  - case_bool_decide; by simplify_eq/=.
  - case_bool_decide; simplify_eq/=.
    destruct (run_loop w) as [| | | | | |[]|]; destruct IH as [IH1 IH2];
      (split; [done|]); intros q Hq; specialize (IH2 q Hq);
      rewrite elem_of_union; tauto.
  - by simplify_eq/=.
  - by simplify_eq/=.
  - unfold step_loop, loop_top, loop_finally in Hstep.
    destruct (run_loop w) as [|e|d|pending| |p|raising|] eqn:Hl;
      destruct i as [| |k a|k| | |r]; simplify_eq/=; split_step; try done.
    + (* the process is created *)
      destruct IH as [_ IH]. split; [done|]. intros q Hq.
      destruct (decide (q = next_process w)) as [->|Hne]; [by left|].
      right. apply IH. lia.
    + (* the process has exited *)
      destruct IH as [IH1 IH2]. split; [by rewrite IH1|].
      intros q Hq. destruct (IH2 q Hq) as [->|?]; [|done].
      match goal with H : has_exited _ _ = true |- _ =>
        unfold has_exited in H; apply bool_decide_eq_true in H; exact H end.
    + (* the reap *)
      by destruct IH.
  - unfold step_task in Hstep.
    destruct (tasks w !! t) as [pc|] eqn:Ht; [|done].
    destruct pc, i; simplify_eq/=; split_step; autorewrite with frame; try done.
    all: match goal with H : _process _ = _ |- _ => by rewrite H end.
Qed.

(** At any time at most one child process is alive: a process that has
    been spawned and has not exited is the one [_run_loop] is waiting for
    and the one [_process] holds; and whenever [_process] is not [None],
    the run loop is between the spawn and the end of the cleanup. *)
Theorem one_child_at_a_time w :
  reachable cfg t0 w →
  (∀ p, (p < next_process w)%nat → p ∉ exited w →
     run_loop w = LWaitProcess p ∧ _process (self w) = Some p) ∧
  (∀ p, _process (self w) = Some p →
     run_loop w = LWaitProcess p ∨ run_loop w = LCleanup false).
Proof.
  intros Hw. pose proof (child_inv_reachable _ Hw) as Hinv.
  unfold child_inv in Hinv. split.
  - intros p Hp Hlive.
    destruct (run_loop w) as [| | | | |p'|[]|]; destruct Hinv as [H1 H2];
      destruct (H2 p Hp) as [->|?] || pose proof (H2 p Hp); done.
  - intros p Hp.
    destruct (run_loop w) as [| | | | |p'|[]|]; destruct Hinv as [H1 H2];
      try congruence; auto.
    left. congruence.
Qed.

(** ** The port map *)

(** Whatever the state, and whether or not [_service_started] is set,
    the port map holds entries for public ports of the descriptor only. *)
Theorem port_map_within_descriptor w pm :
  reachable cfg t0 w → _port_map (self w) = Some pm →
  ∀ port, is_Some (pm !! port) → port ∈ ports cfg.
Proof.
  intros Hw. revert pm. revert w Hw. apply (reachable_ind cfg t0
    (λ w, ∀ pm, _port_map (self w) = Some pm →
          ∀ port, is_Some (pm !! port) → port ∈ ports cfg)).
  { done. }
  intros w a w' Hw IH Hstep pm' Hpm' port Hb.
  pose proof (loop_inv_reachable cfg t0 _ Hw) as Hinv. unfold loop_inv in Hinv.
  destruct a as [dt|p| | |i|t i]; simpl in Hstep.
  - case_bool_decide; simplify_eq/=. by eapply IH.
  - case_bool_decide; simplify_eq/=. by eapply IH.
  - simplify_eq/=. by eapply IH.
  - simplify_eq/=. by eapply IH.
  - unfold step_loop, loop_top, loop_finally in Hstep.
    destruct (run_loop w) as [|e|d|pending| |p|raising|] eqn:Hl;
      destruct i as [| |k a|k| | |r]; simplify_eq/=; split_step;
      try (by eapply IH).
    + by apply is_Some_None in Hb.
    + destruct Hinv as (_ & pm0 & ? & _ & _ & Hsub). simplify_eq.
      rewrite lookup_insert in Hb. case_decide as Heq; [|by eapply IH].
      subst. apply Hsub. left. by eapply list_elem_of_lookup_2.
  - unfold step_task in Hstep.
    destruct (tasks w !! t) as [pc|] eqn:Ht; [|done].
    destruct pc, i; simplify_eq/=; split_step; autorewrite with frame in *;
      by eapply IH.
Qed.

(** ** Restart *)

Lemma run_cons w a acts w1 :
  step cfg w a = Some w1 → run cfg w (a :: acts) = run cfg w1 acts.
Proof. intros Hstep. simpl. by rewrite Hstep. Qed.


(** What the run loop does once the child has exited depends on
    [_service_wanted] alone, which the loop never resets.  If it is set (the
    child crashed under its users), the loop cleans up and launches again,
    as soon as 10 seconds have passed since the previous launch; if it is
    unset (the idle timer replaced it), the loop cleans up and waits, and
    cannot be resumed. *)
Theorem exited_child_is_restarted_iff_wanted w p :
  reachable cfg t0 w → run_loop w = LWaitProcess p → has_exited p w = true →
  (is_set (_service_wanted (self w)) w = true →
     ∃ w', run cfg w (restart w) = Some w' ∧
       run_loop w' = LAlloc (ports cfg) ∧
       _process (self w') = None ∧
       is_set (_service_started (self w')) w' = false ∧
       launches (effects w') =
         Z.max (now w) (_executable_last_started (self w) + seconds 10)
           :: launches (effects w)) ∧
  (is_set (_service_wanted (self w)) w = false →
     ∃ w', run cfg w [Loop Go; Loop Go] = Some w' ∧
       run_loop w' = LWaitWanted (_service_wanted (self w)) ∧
       _process (self w') = None ∧
       launches (effects w') = launches (effects w) ∧
       ∀ i, step cfg w' (Loop i) = None).
Proof.
  intros Hw Hl Hexit.
  destruct (events_wf_reachable cfg t0 _ Hw) as (_ & _ & _ & Hf).
  assert (next_event w ∉ fired w) as Hfresh by (intros ?%Hf; lia).
  split; intros Hwanted.
  - eexists. split_and!.
    + unfold restart.
      erewrite run_cons by (simpl; unfold step_loop; by rewrite Hl, Hexit).
      erewrite run_cons by reflexivity.
      erewrite run_cons
        by (simpl; unfold step_loop, is_set in *; simpl; by rewrite Hwanted).
      erewrite run_cons by (simpl; by rewrite bool_decide_eq_true_2 by lia).
      erewrite run_cons
        by (simpl; unfold step_loop; simpl; by rewrite bool_decide_eq_true_2 by lia).
      reflexivity.
    + done.
    + done.
    + unfold is_set. simpl. by apply bool_decide_eq_false.
    + simpl. f_equal. lia.
  - eexists. split_and!.
    + erewrite run_cons by (simpl; unfold step_loop; by rewrite Hl, Hexit).
      erewrite run_cons by reflexivity. reflexivity.
    + done.
    + done.
    + done.
    + intros i. simpl. unfold step_loop. simpl.
      unfold is_set in *. simpl. rewrite Hwanted. by destruct i.
Qed.

(** ** The first client *)

Lemma run_app acts1 : ∀ w acts2,
  run cfg w (acts1 ++ acts2) = run cfg w acts1 ≫= λ w', run cfg w' acts2.
Proof.
  induction acts1 as [|a acts1 IH]; intros w acts2; simpl; [done|].
  destruct (step cfg w a); simpl; [apply IH|done].
Qed.

Lemma foldl_insert_keeps (a : Z) (l : list Z) : ∀ (m : gmap Z Z) port,
  m !! port = Some a → foldl (λ m port, <[port := a]> m) m l !! port = Some a.
Proof.
  induction l as [|x l IH]; intros m port Hm; simpl; [done|].
  apply IH. rewrite lookup_insert. by case_decide.
Qed.

Lemma foldl_insert_lookup (a : Z) (l : list Z) : ∀ (m : gmap Z Z) port,
  port ∈ l → foldl (λ m port, <[port := a]> m) m l !! port = Some a.
Proof.
  induction l as [|x l IH]; intros m port Hin; simpl.
  { by apply elem_of_nil in Hin. }
  apply elem_of_cons in Hin as [->|Hin]; [|by apply IH].
  apply foldl_insert_keeps, lookup_insert_eq.
Qed.

(** The allocation phase, when the operating system answers [a] to every
    child in turn. *)
Lemma allocate_all a pending : ∀ pm s w0,
  ephemeral a = true →
  run cfg (set_loop (LAlloc pending) (set_self (set_port_map (Some pm) s) w0))
      ((λ _, Loop (Port 0 a)) <$> pending) =
    Some (set_loop (LAlloc [])
            (set_self (set_port_map
                         (Some (foldl (λ m port, <[port := a]> m) pm pending)) s) w0)).
Proof.
  induction pending as [|port pending IH]; intros pm s w0 Ha; [done|].
  rewrite fmap_cons.
  erewrite run_cons; [by apply (IH (<[port := a]> pm) s w0)|].
  simpl. unfold step_loop. simpl. by rewrite Ha.
Qed.

(** A fresh controller serves its first client, whatever the descriptor:
    along the schedule [first_use] the client ends up inside its scope with
    the count at 1, [_service_started] set, a port map that covers every
    port of the descriptor, and the child spawned once, with the environment
    built from that port map.  The launch is stamped with the clock reading
    at construction, or with 10 seconds if the clock read less, because
    [_executable_last_started] starts at 0. *)
Theorem first_client_is_served a :
  ephemeral a = true →
  ∃ w pm, run cfg (init t0) (first_use cfg t0 a) = Some w ∧
    tasks w = [UInScope] ∧ _users (self w) = 1 ∧
    is_set (_service_started (self w)) w = true ∧
    run_loop w = LWaitProcess 0 ∧ _process (self w) = Some 0%nat ∧
    _port_map (self w) = Some pm ∧
    (∀ port, port ∈ ports cfg → pm !! port = Some a) ∧
    launches (effects w) = [Z.max t0 (seconds 10)] ∧
    spawn_envs (effects w) = [child_env (env cfg) pm].
Proof.
  intros Ha. unfold first_use.
  do 2 eexists. split.
  - rewrite run_app.
    do 3 (erewrite run_cons by reflexivity).
    erewrite run_cons by (simpl; unfold step_loop, is_set; simpl;
                          by rewrite bool_decide_eq_true_2 by set_solver).
    erewrite run_cons by (simpl; by rewrite bool_decide_eq_true_2 by lia).
    erewrite run_cons by (simpl; unfold step_loop; simpl;
                          by rewrite bool_decide_eq_true_2 by (unfold seconds; lia)).
    simpl. rewrite run_app.
    match goal with |- context [run cfg ?W (_ <$> _)] =>
      change W with (set_loop (LAlloc (ports cfg))
        (set_self (set_port_map (Some ∅)
                     (set_last_started (t0 + Z.max 0 (seconds 10 - t0))
                        (self (init t0))))
           (emit (Launch (t0 + Z.max 0 (seconds 10 - t0)))
              (set_now (t0 + Z.max 0 (seconds 10 - t0))
                 (set (0%nat) (spawn (UWaitStarted 1) (set_loop (LWaitWanted 0)
                                                        (init t0))))))))
    end.
    rewrite (allocate_all a) by done. cbn [mbind option_bind].
    erewrite run_cons by reflexivity.
    erewrite run_cons by reflexivity.
    erewrite run_cons by (simpl; unfold step_task, is_set; simpl;
                          by rewrite bool_decide_eq_true_2 by set_solver).
    reflexivity.
  - split_and!; try done.
    + intros port Hport. by apply foldl_insert_lookup.
    + simpl. f_equal. unfold seconds. lia.
Qed.

(** ** A new user and the idle timer *)

(** A client that calls [use()] while the idle timer waits on the current
    [_service_wanted] wakes the timer: the client sets the event, and the
    timer task, resumed on it, returns without calling [stop()]; nothing
    leaves the controller and [_service_wanted] stays the same, set
    event. *)
Theorem new_user_stops_idle_timer w (t u : nat) e d :
  tasks w !! t = Some (TWait e d) → _service_wanted (self w) = e →
  tasks w !! u = Some UEntry →
  ∃ w1 w2, step cfg w (Resume u Go) = Some w1 ∧
           step cfg w1 (Resume t Go) = Some w2 ∧
           tasks w2 !! t = Some TReturned ∧
           tasks w2 !! u = Some (UWaitStarted (_service_started (self w))) ∧
           effects w2 = effects w ∧
           _service_wanted (self w2) = e ∧ is_set e w2 = true.
Proof.
  intros Ht <- Hu.
  assert (t ≠ u) as Hne by (intros ->; congruence).
  assert (t < length (tasks w) ∧ u < length (tasks w))%nat as [Hlt Hlu]
    by (split; by eapply lookup_lt_Some).
  assert (is_set (_service_wanted (self w)) (set (_service_wanted (self w)) w) = true)
    as Hset.
  { unfold is_set. simpl. apply bool_decide_eq_true_2. set_solver. }
  do 2 eexists. split_and!.
  - simpl. unfold step_task. by rewrite Hu.
  - simpl. unfold step_task. simpl.
    rewrite list_lookup_insert_ne, Ht by done.
    unfold is_set in *. simpl in *. by rewrite Hset.
  - simpl. apply list_lookup_insert_eq. by rewrite length_insert.
  - simpl. rewrite list_lookup_insert_ne by done.
    by apply list_lookup_insert_eq.
  - done.
  - done.
  - exact Hset.
Qed.

End Behaviour.

Lemma timer_waits_full_idle_window_witness :
  now (state_after web last_user_leaves) + seconds 600
    ≤ now (state_after web (timer_armed ++ [Tick (seconds 600)])) ∧
  state_after web (timer_armed ++ [Tick (seconds 600); Resume 2 Timeout]) =
    stop web 2 (state_after web (timer_armed ++ [Tick (seconds 600)])).
Proof.
  apply (timer_waits_full_idle_window web
           (state_after web last_user_leaves) 2 0
           (state_after web timer_armed) [Tick (seconds 600)]
           (state_after web (timer_armed ++ [Tick (seconds 600)]))
           2 (seconds 610)).
  all: vm_compute; reflexivity.
Defined.

Lemma kill_only_after_grace_period_witness :
  let w := state_after web stop_requested in
  let w1 := state_after web (stop_requested ++ [Resume 1 Go]) in
  let w2 := state_after web (stop_requested ++ [Resume 1 Go; Tick (seconds 5)]) in
  let w3 := state_after web
              (stop_requested ++ [Resume 1 Go; Tick (seconds 5); Resume 1 Timeout]) in
  effects w1 = SendSignal 0 (signal web) :: effects w ∧
  now w + seconds 5 ≤ now w2 ∧
  ∀ q, _process (self w2) = Some q →
    effects w3 = Kill q :: effects w2 ∧ tasks w3 !! 1%nat = Some (SKillWait q).
Proof.
  intros w w1 w2 w3.
  apply (kill_only_after_grace_period web w 1 0 w1 [Tick (seconds 5)] w2 w3).
  all: vm_compute; reflexivity.
Defined.

Lemma nothing_happens_without_use_witness :
  let w := state_after web [Stop; Loop Go; Tick 5; Resume 0 Go] in
  effects w = [] ∧ _process (self w) = None ∧ next_process w = 0%nat.
Proof.
  intros w.
  apply (nothing_happens_without_use web 0 [Stop; Loop Go; Tick 5; Resume 0 Go] w).
  - vm_compute. reflexivity.
  - intros H. repeat (apply elem_of_cons in H as [H|H]; [discriminate|]).
    by apply elem_of_nil in H.
Defined.

Lemma one_child_at_a_time_witness :
  let w := state_after web cold_start in
  (∀ p, (p < next_process w)%nat → p ∉ exited w →
     run_loop w = LWaitProcess p ∧ _process (self w) = Some p) ∧
  (∀ p, _process (self w) = Some p →
     run_loop w = LWaitProcess p ∨ run_loop w = LCleanup false).
Proof.
  intros w. exact (one_child_at_a_time web 0 w cold_start_reachable).
Defined.

Lemma port_map_within_descriptor_witness : 443 ∈ ports web.
Proof.
  apply (port_map_within_descriptor web 0 (state_after web cold_start)
           {[80 := 50000; 443 := 50000]} cold_start_reachable).
  - vm_compute. reflexivity.
  - vm_compute. by eexists.
Defined.

Lemma exited_child_is_restarted_iff_wanted_witness :
  let w := state_after web (cold_start ++ [Exit 0]) in
  (is_set (_service_wanted (self w)) w = true →
     ∃ w', run web w (restart w) = Some w' ∧
       run_loop w' = LAlloc (ports web) ∧
       _process (self w') = None ∧
       is_set (_service_started (self w')) w' = false ∧
       launches (effects w') =
         Z.max (now w) (_executable_last_started (self w) + seconds 10)
           :: launches (effects w)) ∧
  (is_set (_service_wanted (self w)) w = false →
     ∃ w', run web w [Loop Go; Loop Go] = Some w' ∧
       run_loop w' = LWaitWanted (_service_wanted (self w)) ∧
       _process (self w') = None ∧
       launches (effects w') = launches (effects w) ∧
       ∀ i, step web w' (Loop i) = None).
Proof.
  intros w. apply (exited_child_is_restarted_iff_wanted web 0 w 0).
  - apply reachable_state_after. vm_compute. by eexists.
  - vm_compute. reflexivity.
  - vm_compute. reflexivity.
Defined.

Lemma first_client_is_served_witness :
  ∃ w pm, run web (init 0) (first_use web 0 50000) = Some w ∧
    tasks w = [UInScope] ∧ _users (self w) = 1 ∧
    is_set (_service_started (self w)) w = true ∧
    run_loop w = LWaitProcess 0 ∧ _process (self w) = Some 0%nat ∧
    _port_map (self w) = Some pm ∧
    (∀ port, port ∈ ports web → pm !! port = Some 50000) ∧
    launches (effects w) = [Z.max 0 (seconds 10)] ∧
    spawn_envs (effects w) = [child_env (env web) pm].
Proof. apply (first_client_is_served web 0 50000). reflexivity. Defined.

Lemma new_user_stops_idle_timer_witness :
  let w := state_after web timer_armed in
  ∃ w1 w2, step web w (Resume 1 Go) = Some w1 ∧
           step web w1 (Resume 2 Go) = Some w2 ∧
           tasks w2 !! 2%nat = Some TReturned ∧
           tasks w2 !! 1%nat = Some (UWaitStarted (_service_started (self w))) ∧
           effects w2 = effects w ∧
           _service_wanted (self w2) = 2%nat ∧ is_set 2 w2 = true.
Proof.
  intros w. apply (new_user_stops_idle_timer web w 2 1 2 (seconds 610)).
  all: vm_compute; reflexivity.
Defined.

(** ** The child environment determines the port map *)

Lemma foldl_add_lookup_inv (l : list (Z * Z)) : ∀ m k v,
  foldl add_port_var m l !! k = Some v →
  m !! k = Some v ∨ ∃ item, item ∈ l ∧ k = port_var item.1 ∧ v = str item.2.
Proof.
  induction l as [|x l IH]; intros m k v Hk; simpl in *; [by left|].
  apply IH in Hk as [Hk|(item & Hin & ? & ?)].
  - unfold add_port_var in Hk. apply lookup_insert_Some in Hk as [[<- <-]|[_ Hk]].
    + right. exists x. split_and!; [by left|done..].
    + by left.
  - right. exists item. split_and!; [by right|done..].
Qed.

Lemma port_vars_lookup_inv (pm : gmap Z Z) k v :
  port_vars pm !! k = Some v →
  ∃ port a, pm !! port = Some a ∧ k = port_var port ∧ v = str a.
Proof.
  intros [Hk|([port a] & Hin & ? & ?)]%foldl_add_lookup_inv; [done|].
  exists port, a. split_and!; [by apply elem_of_map_to_list|done..].
Qed.

(** Two port maps that give the same [PORT_<P>] variables are equal. *)
Lemma port_vars_agree (pm1 pm2 : gmap Z Z) :
  (∀ port, port_vars pm1 !! port_var port = port_vars pm2 !! port_var port) →
  pm1 = pm2.
Proof.
  intros Heq.
  assert (∀ (m1 m2 : gmap Z Z) port a,
            (∀ port, port_vars m1 !! port_var port = port_vars m2 !! port_var port) →
            m1 !! port = Some a → m2 !! port = Some a)
    as Hone.
  { intros m1 m2 port a Hm Ha. apply port_vars_lookup in Ha. rewrite Hm in Ha.
    apply port_vars_lookup_inv in Ha as (port' & a' & Ha' & Hk & Hv).
    apply port_var_inj in Hk as <-. apply (inj pretty) in Hv as <-. done. }
  apply map_eq. intros port.
  destruct (pm1 !! port) as [a|] eqn:H1.
  - symmetry. by eapply Hone.
  - destruct (pm2 !! port) as [a|] eqn:H2; [|done].
    assert (pm1 !! port = Some a) by (eapply (Hone pm2 pm1); [|done]; by intros ?).
    congruence.
Qed.

(** When the base environment has no variable of the form [PORT_<n>],
    the environment handed to the child says everything about the port map
    it was made from: two port maps that give the same child environment
    are equal. *)
Theorem child_env_determines_port_map base (pm1 pm2 : gmap Z Z) :
  (∀ port, base !! port_var port = None) →
  child_env base pm1 = child_env base pm2 → pm1 = pm2.
Proof.
  intros Hbase Heq. apply port_vars_agree. intros port.
  assert (∀ pm : gmap Z Z,
            child_env base pm !! port_var port = port_vars pm !! port_var port)
    as Hl.
  { intros pm. unfold child_env. by apply lookup_union_l. }
  by rewrite <-!Hl, Heq.
Qed.

Lemma web_env_has_no_port_variable port : env web !! port_var port = None.
Proof.
  simpl. apply lookup_singleton_ne. unfold port_var. intros H. discriminate H.
Qed.

Lemma child_env_determines_port_map_witness :
  (<[80 := 50000]> {[443 := 50001]} : gmap Z Z) = <[443 := 50001]> {[80 := 50000]}.
Proof.
  apply (child_env_determines_port_map (env web)
           (<[80 := 50000]> {[443 := 50001]}) (<[443 := 50001]> {[80 := 50000]})).
  - exact web_env_has_no_port_variable.
  - vm_compute. reflexivity.
Defined.

(** The condition on the base environment is needed: a base variable
    named [PORT_8080] is replaced by the entry for public port 8080, so
    with it two different port maps can give the same child environment. *)
Example base_port_variable_hides_mapping :
  child_env {["PORT_8080" := "1"]} {[80 := 50000]} =
    child_env {["PORT_8080" := "1"]} (<[8080 := 1]> {[80 := 50000]}) ∧
  ({[80 := 50000]} : gmap Z Z) ≠ <[8080 := 1]> {[80 := 50000]}.
Proof.
  split; [by vm_compute|].
  intros Heq. assert (({[80 := 50000]} : gmap Z Z) !! 8080 = Some 1) as Hl.
  { rewrite Heq. apply lookup_insert_eq. }
  by vm_compute in Hl.
Qed.

End ServiceFacts.

(** * Properties of the connection pump *)

Module TcpFacts.

Import Tcp.

Local Open Scope Z_scope.

(** A prefix of refused attempts inside the window only adds retries. *)
Lemma connect_loop_retried raise_after pre rest :
  Forall (λ a, a.1 = OSError true ∧ a.2 ≤ raise_after) pre →
  connect_loop raise_after (pre ++ rest) =
    (retried pre ++ (connect_loop raise_after rest).1,
     (connect_loop raise_after rest).2).
Proof.
  induction 1 as [|[o t] pre [Ho Ht] _ IH]; simpl in *.
  { by destruct (connect_loop raise_after rest). }
  subst o. unfold attempt. simpl.
  rewrite bool_decide_eq_false_2 by lia. by rewrite IH.
Qed.

(** C6. While [proxy] opens the backend connection, every attempt that is
    refused no more than 20 seconds after entry is followed by a sleep of
    100 ms and another attempt; after any number of such retries, a refused
    attempt more than 20 seconds after entry raises, and so does an attempt
    that fails for any other cause, at once and whatever the clock reads. *)
Theorem connect_retries_only_refused_within_window entry pre rest :
  Forall (λ a, a.1 = OSError true ∧ a.2 - entry ≤ seconds 20) pre →
  proxy_connect entry (pre ++ rest) =
    (retried pre ++ (proxy_connect entry rest).1, (proxy_connect entry rest).2) ∧
  (∀ t, seconds 20 < t - entry →
     proxy_connect entry (pre ++ (OSError true, t) :: rest) =
       (retried pre ++ [Attempt], Raised)) ∧
  (∀ t, proxy_connect entry (pre ++ (OSError false, t) :: rest) =
       (retried pre ++ [Attempt], Raised)).
Proof.
  intros Hpre. unfold proxy_connect.
  assert (Forall (λ a, a.1 = OSError true ∧ a.2 ≤ entry + seconds 20) pre) as Hpre'.
  { eapply Forall_impl; [exact Hpre|]. intros a [? ?]. split; [done|lia]. }
  split_and!.
  - by apply connect_loop_retried.
  - intros t Ht. rewrite connect_loop_retried by done. simpl.
    unfold attempt. simpl. by rewrite bool_decide_eq_true_2 by lia.
  - intros t. by rewrite connect_loop_retried by done.
Qed.

Lemma connect_retries_only_refused_within_window_witness :
  proxy_connect 0 ([(OSError true, 3); (OSError true, seconds 20)] ++ [(Connects, 20100)]) =
    ([Attempt; Sleep 100; Attempt; Sleep 100; Attempt], Opened) ∧
  (∀ t, seconds 20 < t - 0 →
     proxy_connect 0 ([(OSError true, 3); (OSError true, seconds 20)]
                        ++ (OSError true, t) :: [(Connects, 20100)]) =
       ([Attempt; Sleep 100; Attempt; Sleep 100; Attempt], Raised)) ∧
  (∀ t, proxy_connect 0 ([(OSError true, 3); (OSError true, seconds 20)]
                           ++ (OSError false, t) :: [(Connects, 20100)]) =
       ([Attempt; Sleep 100; Attempt; Sleep 100; Attempt], Raised)).
Proof.
  apply (connect_retries_only_refused_within_window 0
           [(OSError true, 3); (OSError true, seconds 20)] [(Connects, 20100)]).
  repeat constructor; simpl; unfold seconds; lia.
Defined.

Example backend_slow_start :
  proxy_connect 0 [(OSError true, 5); (OSError true, 110); (Connects, 215)] =
    ([Attempt; Sleep 100; Attempt; Sleep 100; Attempt], Opened).
Proof. reflexivity. Qed.

(** C7, as the code has it.  A copy task that sees end-of-stream or a
    broken pipe calls [cancel()] on the shared scope and returns; once the
    scope is cancelled, a task that is resumed stops, and a task that has
    not stopped can be resumed by the cancellation; no step of either task
    closes a stream. *)
Theorem copy_tasks_cancel_each_other s d i s' :
  copy_step s (d, i) = Some s' →
  (i = Received [] ∨ i = Broken →
     cancel_called s' = true ∧ task_of d s' = Finished) ∧
  (cancel_called s = true →
     cancel_called s' = true ∧ stopped (task_of d s') = true) ∧
  (∀ d', cancel_called s' = true → stopped (task_of d' s') = false →
     ∃ s'', copy_step s' (d', Cancel) = Some s'' ∧ task_of d' s'' = Cancelled) ∧
  closed (incoming s') = closed (incoming s) ∧
  closed (outgoing s') = closed (outgoing s).
Proof.
  intros Hstep. split_and!.
  - intros [-> | ->]; simpl in Hstep; unfold one_way_proxy in Hstep;
      destruct d, (task_of _ s); simplify_eq/=; done.
  - intros Hc. simpl in Hstep. unfold one_way_proxy in Hstep. rewrite Hc in Hstep.
    destruct d; simpl in Hstep;
      [destruct (upstream s)|destruct (downstream s)];
      destruct i as [[|b bs]| | |]; simplify_eq/=; done.
  - intros d' Hc Hns. simpl. unfold one_way_proxy. rewrite Hc.
    destruct d'; simpl in *;
      [destruct (upstream s')|destruct (downstream s')]; simplify_eq/=; eauto.
  - simpl in Hstep. destruct (one_way_proxy _ _ _) as [[[[pc c] [bs|]] out]|];
      destruct d; by simplify_eq/=.
  - simpl in Hstep. destruct (one_way_proxy _ _ _) as [[[[pc c] [bs|]] out]|];
      destruct d; by simplify_eq/=.
Qed.

Lemma copy_tasks_cancel_each_other_witness :
  ∃ s', copy_step copy_start (Upstream, Received []) = Some s' ∧
        cancel_called s' = true ∧ task_of Upstream s' = Finished ∧
        ∃ s'', copy_step s' (Downstream, Cancel) = Some s'' ∧
               task_of Downstream s'' = Cancelled.
Proof.
  eexists. split; [reflexivity|].
  destruct (copy_tasks_cancel_each_other copy_start Upstream (Received []) _ eq_refl)
    as (Heof & _ & Hcancel & _).
  destruct (Heof (or_introl eq_refl)) as [Hc Hf].
  split_and!; [exact Hc|exact Hf|].
  exact (Hcancel Downstream Hc eq_refl).
Defined.

(** C7 fails on the code: both copy tasks have stopped and [proxy] has
    returned, and neither stream has been closed. *)
Lemma proxy_leaves_streams_open :
  ∃ s, copy_run copy_start client_hangs_up = Some s ∧
       cancel_called s = true ∧
       proxy_returned s = true ∧
       closed (incoming s) = false ∧
       closed (outgoing s) = false.
Proof. eexists. by split_and!. Qed.

(** * Further properties of the connection pump *)

(** [proxy] gets a connection exactly when an attempt connects after
    nothing but refused attempts, each no more than 20 seconds after
    entry. *)
Theorem proxy_opens_iff entry answers :
  (proxy_connect entry answers).2 = Opened ↔
  ∃ pre t rest, answers = pre ++ (Connects, t) :: rest ∧
    Forall (λ a, a.1 = OSError true ∧ a.2 - entry ≤ seconds 20) pre.
Proof.
  unfold proxy_connect. split.
  - induction answers as [|[o t] answers IH]; simpl; [done|].
    destruct o as [|[]]; simpl.
    + intros _. by exists [], t, answers.
    + case_bool_decide as Ht; simpl; [done|].
      destruct (connect_loop _ answers) as [evs r] eqn:Hrest. simpl in *.
      intros Hr. destruct (IH Hr) as (pre & t' & rest & -> & Hpre).
      exists ((OSError true, t) :: pre), t', rest. split; [done|].
      constructor; [|done]. simpl. split; [done|lia].
    + done.
  - intros (pre & t & rest & -> & Hpre).
    rewrite connect_loop_retried; [done|].
    eapply Forall_impl; [exact Hpre|]. intros a [? ?]. split; [done|lia].
Qed.

Lemma connect_loop_decides raise_after answers : ∀ t,
  paced t answers →
  raise_after < t + 100 * (Z.of_nat (length answers) - 1) →
  (0 < length answers)%nat →
  (connect_loop raise_after answers).2 ≠ Retrying.
Proof.
  induction answers as [|[o t'] answers IH]; intros t Hpaced Hlate Hlen;
    simpl in *; [lia|].
  destruct Hpaced as [Ht Hpaced]. unfold attempt.
  destruct o as [|[]]; simpl; try done.
  case_bool_decide as Hin; simpl; [done|].
  destruct (connect_loop raise_after answers) as [evs r] eqn:Hrest. simpl.
  apply (IH (t' + 100) Hpaced); lia.
Qed.

(** [proxy] does not retry for ever: on a clock that does not go back,
    with sleeps of at least 100 ms, the connect loop has connected or
    raised by its 202nd attempt at the latest. *)
Theorem proxy_decides_within_202_attempts entry answers :
  paced entry answers → (202 ≤ length answers)%nat →
  (proxy_connect entry answers).2 ≠ Retrying.
Proof.
  intros Hpaced Hlen. unfold proxy_connect.
  apply (connect_loop_decides _ _ entry); [done| |lia].
  unfold seconds. lia.
Qed.

Lemma proxy_decides_within_202_attempts_witness :
  (proxy_connect 0 (imap (λ i _, (OSError true, 100 * Z.of_nat i)) (replicate 202 ()))).2
    ≠ Retrying.
Proof.
  apply proxy_decides_within_202_attempts.
  - vm_compute. repeat split; discriminate.
  - vm_compute. lia.
Defined.

Example refused_for_ever :
  proxy_connect 0 (imap (λ i _, (OSError true, 100 * Z.of_nat i)) (replicate 202 ())) =
    (retried (replicate 201 (OSError true, 0)) ++ [Attempt], Raised).
Proof. by vm_compute. Qed.

(** ** Forwarding *)

Lemma copy_run_snoc acts : ∀ s a,
  copy_run s (acts ++ [a]) = copy_run s acts ≫= λ s', copy_step s' a.
Proof.
  induction acts as [|b acts IH]; intros s a; simpl.
  - by destruct (copy_step s a).
  - destruct (copy_step s b); simpl; [apply IH|done].
Qed.

Lemma received_snoc d acts a :
  received d (acts ++ [a]) = received d acts ++ received d [a].
Proof.
  induction acts as [|[d' i] acts IH]; simpl; [done|].
  destruct i as [[|b data]| | |]; try done.
  destruct (same_direction d d'); simpl; by rewrite IH.
Qed.

Lemma forwarded_step d s a s' got :
  forwarded d s got → copy_step s a = Some s' →
  forwarded d s' (got ++ received d [a]).
Proof.
  destruct a as [d' i]. unfold forwarded, copy_step, one_way_proxy.
  intros Hinv Hstep.
  destruct d, d'; simpl in *;
    (destruct (upstream s) eqn:Hu || idtac);
    (destruct (downstream s) eqn:Hd || idtac);
    destruct i as [[|b bs]| | |]; simpl in *;
    destruct (cancel_called s); simplify_eq/=;
    rewrite ?app_nil_r, ?length_app in *; simpl in *;
    try done;
    try (destruct Hinv as [Hpre Hlen]);
    repeat split; try done; try lia;
    try (by subst; apply prefix_app_r);
    try (by eexists);
    try (subst; rewrite ?length_app; simpl; lia).
Qed.

(** Each direction forwards what it receives, unchanged and in order:
    whatever the run of the two copy tasks, what has been written to a sink
    is an initial part of the non-empty chunks received from the matching
    source, at most one chunk short; and while the copy task is waiting in
    [receive_some], the sink has been sent every chunk. *)
Theorem copy_forwards_in_order acts s d :
  copy_run copy_start acts = Some s →
  written (sink_of d s) `prefix_of` received d acts ∧
  (length (received d acts) ≤ S (length (written (sink_of d s))))%nat ∧
  (task_of d s = Receiving → written (sink_of d s) = received d acts).
Proof.
  intros Hrun.
  assert (forwarded d s (received d acts)) as Hinv.
  { revert s Hrun. induction acts as [|a acts IH] using rev_ind; intros s Hrun.
    - simplify_eq/=. by destruct d.
    - rewrite copy_run_snoc in Hrun.
      destruct (copy_run copy_start acts) as [s1|] eqn:Hs1; simplify_eq/=.
      rewrite received_snoc. eapply forwarded_step; [by apply IH|done]. }
  unfold forwarded in Hinv. destruct (task_of d s) eqn:Hpc; simpl in *.
  - rewrite app_nil_r in Hinv. rewrite <-Hinv. split_and!; [done|lia|done].
  - rewrite <-Hinv.
    split_and!; [by apply prefix_app_r|rewrite length_app; simpl; lia|done].
  - destruct Hinv. split_and!; done.
  - destruct Hinv. split_and!; done.
Qed.

Lemma copy_forwards_in_order_witness :
  ∃ s, copy_run copy_start echo = Some s ∧
       written (sink_of Downstream s) `prefix_of` received Downstream echo ∧
       (length (received Downstream echo) ≤ S (length (written (sink_of Downstream s))))%nat ∧
       (task_of Downstream s = Receiving →
        written (sink_of Downstream s) = received Downstream echo).
Proof.
  eexists. split; [vm_compute; reflexivity|].
  apply (copy_forwards_in_order echo _ Downstream). vm_compute. reflexivity.
Defined.

Example echo_runs :
  ∃ s, copy_run copy_start echo = Some s ∧
       written (outgoing s) = [[Byte.x68; Byte.x69]] ∧
       written (incoming s) = [[Byte.x68; Byte.x69]] ∧
       proxy_returned s = true.
Proof. eexists. split; [vm_compute; reflexivity|]. by vm_compute. Qed.

End TcpFacts.

(** * [wait_for_port] *)

Module ProbeFacts.

Import Service.

(** [wait_for_port] returns exactly when some attempt connects; it has
    then slept 100 ms after each of the failed attempts before, closed the
    one stream it opened and looked at no later answer; no [OSError] ever
    leaves it. *)
Theorem wait_for_port_returns_on_first_connection answers :
  ((wait_for_port answers).2 = true ↔ true ∈ answers) ∧
  ∀ n rest,
    wait_for_port (replicate n false ++ true :: rest) =
      (mjoin (replicate n [Open; Nap 100]) ++ [Open; Close], true).
Proof.
  split.
  - induction answers as [|[] answers IH]; simpl.
    + split; [done|]. intros []%elem_of_nil.
    + split; [|done]. intros _. by left.
    + destruct (wait_for_port answers) as [evs r]. simpl in *.
      rewrite IH. split; [by right|].
      intros [?|?]%elem_of_cons; done.
  - intros n rest. induction n as [|n IH]; simpl; [done|]. by rewrite IH.
Qed.

End ProbeFacts.
